(** * Staff hierarchy (app.py): a shallow embedding and its properties

    The program reads a flat list of employees, sorts it by first name,
    picks the employees without a manager as the top level, and attaches
    to every employee it reaches the name-sorted list of the employees
    reporting to it.  It exposes the total of the salaries and a textual
    rendering of the hierarchy.

    Python objects are mutable and shared, so the embedding is over an
    explicit heap holding the [Employee] objects and the [list] objects;
    an object reference is an address.  Errors raised by the program
    ([TypeError] of [reduce] on an empty sequence, [RecursionError] of an
    unbounded recursion) are results of the embedded functions. *)

From Stdlib Require Import List ZArith String Ascii Bool Arith Lia.
From Stdlib Require Import Permutation Sorted Relations.
Import ListNotations.

Set Implicit Arguments.

(** ** Results of computations that may raise *)

Inductive result (A : Type) : Type :=
| Ok (a : A)
| TypeError
| RecursionError.

Arguments Ok {A} a.
Arguments TypeError {A}.
Arguments RecursionError {A}.

Definition bind {A B : Type} (c : result A) (k : A -> result B) : result B :=
  match c with
  | Ok a => k a
  | TypeError => TypeError
  | RecursionError => RecursionError
  end.

Notation "x <- c ;; k" := (bind c (fun x => k))
  (at level 61, c at next level, right associativity).
Notation "' pat <- c ;; k" := (bind c (fun x => match x with pat => k end))
  (at level 61, pat pattern, c at next level, right associativity).

(** [for x in l: body], threading a state through the iterations. *)
Fixpoint forEach {A S : Type} (body : A -> S -> result S) (l : list A) (s : S)
  : result S :=
  match l with
  | [] => Ok s
  | x :: rest => s' <- body x s ;; forEach body rest s'
  end.

(** [functools.reduce(f, l)] without an initial value: it raises
    [TypeError] on an empty sequence. *)
Definition reduce {A : Type} (f : A -> A -> A) (l : list A) : result A :=
  match l with
  | [] => TypeError
  | x :: rest => Ok (fold_left f rest x)
  end.

(** ** [list.sort(key=...)]: a stable sort

    Python's sort is stable; the result of a stable sort is determined by
    the input, and stable insertion computes it. *)

Section StableSort.
Context {A K : Type} (key : A -> K) (leb : K -> K -> bool).

Fixpoint insert_by (x : A) (l : list A) : list A :=
  match l with
  | [] => [x]
  | y :: l' => if leb (key x) (key y) then x :: y :: l'
               else y :: insert_by x l'
  end.

Fixpoint sort_by (l : list A) : list A :=
  match l with
  | [] => []
  | x :: l' => insert_by x (sort_by l')
  end.

(** The order the sort establishes between neighbours. *)
Definition key_le (x y : A) : Prop := leb (key x) (key y) = true.
End StableSort.

(** ** The heap *)

Definition ref := nat.   (* address of an Employee object *)
Definition lref := nat.  (* address of a list object *)

(** The dictionary an employee is built from (a validated record). *)
Record RawEmployee : Type := mkRaw {
  raw_id : Z;
  raw_first_name : string;
  raw_salary : Z;
  raw_manager : option Z
}.

(** class Employee: [manager] is an int or [None]; [employees] refers to
    a list object. *)
Record Employee : Type := mkEmployee {
  id : Z;
  first_name : string;
  salary : Z;
  manager : option Z;
  employees : lref
}.

Record heap : Type := mkHeap {
  emp : ref -> Employee;        (* the Employee objects *)
  lst : lref -> list ref;       (* the list objects *)
  nextE : ref;                  (* first free Employee address *)
  next : lref                   (* first free list address *)
}.

Definition upd {V : Type} (m : nat -> V) (a : nat) (v : V) : nat -> V :=
  fun b => if Nat.eqb b a then v else m b.

Definition set_lst (l : lref) (v : list ref) (h : heap) : heap :=
  mkHeap (emp h) (upd (lst h) l v) (nextE h) (next h).

Definition set_emp (r : ref) (e : Employee) (h : heap) : heap :=
  mkHeap (upd (emp h) r e) (lst h) (nextE h) (next h).

(** A new list object (a list display or a comprehension). *)
Definition new_list (v : list ref) (h : heap) : lref * heap :=
  (next h, mkHeap (emp h) (upd (lst h) (next h) v) (nextE h) (S (next h))).

Definition empty_heap : heap :=
  mkHeap (fun _ => mkEmployee 0 EmptyString 0 None 0) (fun _ => []) 0 0.

(** The list an employee's [employees] attribute refers to. *)
Definition reports (h : heap) (r : ref) : list ref :=
  lst h (employees (emp h r)).

(** [l.sort(key = lambda x: x.first_name)], in place. *)
Definition sort_by_name (h : heap) (l : list ref) : list ref :=
  sort_by (fun x => first_name (emp h x)) String.leb l.

Definition list_sort (l : lref) (h : heap) : heap :=
  set_lst l (sort_by_name h (lst h l)) h.

(** ** class Employee *)

(** [Employee.__init__]: [self.employees = []] is a new list object. *)
Definition Employee_init (d : RawEmployee) (h : heap) : ref * heap :=
  let (l, h1) := new_list [] h in
  let self := nextE h1 in
  (self,
   mkHeap (upd (emp h1) self
             (mkEmployee (raw_id d) (raw_first_name d) (raw_salary d)
                (raw_manager d) l))
          (lst h1) (S self) (next h1)).

(** [self.manager == None] *)
Definition isOwner (e : Employee) : bool :=
  match manager e with
  | None => true
  | Some _ => false
  end.

(** [len(self.employees) > 0] *)
Definition isManager (h : heap) (self : ref) : bool :=
  0 <? List.length (reports h self).

(** [self.manager == id], for an int [id]. *)
Definition reportsToId (e : Employee) (i : Z) : bool :=
  match manager e with
  | None => false
  | Some m => Z.eqb m i
  end.

(** [setEmployees]: sorts the argument list in place, then stores the
    reference to it. *)
Definition setEmployees (self : ref) (employees_arg : lref) (h : heap) : heap :=
  let h1 := list_sort employees_arg h in
  let e := emp h1 self in
  set_emp self
    (mkEmployee (id e) (first_name e) (salary e) (manager e) employees_arg) h1.

(** ** class Staff *)

Record Staff : Type := mkStaff {
  s_employees : lref;   (* self.employees *)
  s_hierarchy : lref    (* self.hierarchy *)
}.

(** A list comprehension [[x for x in src if p x]] over a list object. *)
Definition list_comp (p : ref -> bool) (src : lref) (h : heap) : lref * heap :=
  new_list (filter p (lst h src)) h.

(** [Staff.__generateHierarchy].  The recursion is bounded by [fuel]
    (the depth of the Python call stack): running out of it is
    [RecursionError].  The second component of the state is a ghost log
    of the employees bound to the loop variable, in order.  The loop runs
    over the contents of [hierarchyLevel] read at its start: the only
    lists mutated during the loop are the new ones of the comprehension
    (see [generateHierarchy_frame]). *)
Fixpoint generateHierarchy (fuel : nat) (self : Staff) (hierarchyLevel : lref)
    (st : heap * list ref) {struct fuel} : result (heap * list ref) :=
  match fuel with
  | 0 => RecursionError
  | S fuel' =>
      forEach
        (fun (employee : ref) (st : heap * list ref) =>
           let (h, visited) := st in
           let visited := visited ++ [employee] in
           let (employees_new, h1) :=
             list_comp (fun x => reportsToId (emp h x) (id (emp h employee)))
                       (s_employees self) h in
           if 0 <? List.length (lst h1 employees_new) then
             let h2 := setEmployees employee employees_new h1 in
             generateHierarchy fuel' self (employees (emp h2 employee))
                               (h2, visited)
           else Ok (h1, visited))
        (lst (fst st) hierarchyLevel) st
  end.

(** [Staff.__init__]; returns the object, the heap and the ghost log. *)
Definition Staff_init (fuel : nat) (employees_arg : lref) (h : heap)
  : result (Staff * heap * list ref) :=
  let h1 := list_sort employees_arg h in
  let (hier, h2) := list_comp (fun x => isOwner (emp h1 x)) employees_arg h1 in
  let self := mkStaff employees_arg hier in
  '(h3, visited) <- generateHierarchy fuel self (s_hierarchy self) (h2, []) ;;
  Ok (self, h3, visited).

(** [' ' * depth]: empty for a negative count. *)
Fixpoint spaces_nat (n : nat) : string :=
  match n with
  | 0 => EmptyString
  | S n' => String " "%char (spaces_nat n')
  end.

Definition spaces (depth : Z) : string := spaces_nat (Z.to_nat depth).

Definition newline : string := String (ascii_of_nat 10) EmptyString.

(** [Staff.__generateHierarchyString] *)
Fixpoint generateHierarchyString (fuel : nat) (h : heap) (hierarchyLevel : lref)
    (depth tabWidth : Z) {struct fuel} : result string :=
  match fuel with
  | 0 => RecursionError
  | S fuel' =>
      let prefix := spaces depth in
      forEach
        (fun (employee : ref) (hierarchyString : string) =>
           let hierarchyString :=
             (hierarchyString ++ (prefix ++ first_name (emp h employee) ++ newline))%string in
           if isManager h employee then
             sub <- generateHierarchyString fuel' h (employees (emp h employee))
                      (depth + tabWidth) tabWidth ;;
             Ok (hierarchyString ++ sub)%string
           else Ok hierarchyString)
        (lst h hierarchyLevel) EmptyString
  end.

(** [Staff.__repr__] *)
Definition repr (fuel : nat) (self : Staff) (h : heap) : result string :=
  generateHierarchyString fuel h (s_hierarchy self) 0 2.

(** [Staff.totalSalary] *)
Definition totalSalary (self : Staff) (h : heap) : result Z :=
  let salaries := map (fun x => salary (emp h x)) (lst h (s_employees self)) in
  reduce Z.add salaries.

(** ** Concrete inputs (the scenarios of app.test.py) *)

(** Builds the employees of a list of records, in order, then the list
    object holding them: [[Employee(x) for x in data]]. *)
Fixpoint build_employees (data : list RawEmployee) (h : heap)
  : list ref * heap :=
  match data with
  | [] => ([], h)
  | d :: rest =>
      let (r, h1) := Employee_init d h in
      let (rs, h2) := build_employees rest h1 in
      (r :: rs, h2)
  end.

Definition build_input (data : list RawEmployee) : lref * heap :=
  let (rs, h) := build_employees data empty_heap in
  new_list rs h.

Definition input_list (data : list RawEmployee) : lref := fst (build_input data).
Definition input_heap (data : list RawEmployee) : heap := snd (build_input data).

Definition scenario_hierarchy : list RawEmployee :=
  [ mkRaw 1 "jacob" 130000 None;
    mkRaw 2 "jacob" 130000 (Some 1%Z);
    mkRaw 3 "a" 130000 (Some 1%Z) ].

(** * Specification-level definitions *)

(** The attributes of an employee other than [employees] are never
    assigned after [__init__]. *)
Definition same_fields (h h' : heap) : Prop :=
  forall r,
    id (emp h' r) = id (emp h r) /\
    first_name (emp h' r) = first_name (emp h r) /\
    salary (emp h' r) = salary (emp h r) /\
    manager (emp h' r) = manager (emp h r).

(** What a computation leaves alone: the lists that existed before it
    and the attributes of the employees. *)
Definition frame (h h' : heap) : Prop :=
  next h <= next h' /\
  (forall l, l < next h -> lst h' l = lst h l) /\
  same_fields h h'.

(** ** The hierarchy as a function of the roster

    [children h all m] is what the program stores in [m.employees] when
    it reaches [m], and [visit] lists the employees the recursion goes
    through, in order. *)

Definition children (h : heap) (all : list ref) (m : ref) : list ref :=
  sort_by_name h
    (filter (fun x => reportsToId (emp h x) (id (emp h m))) all).

Fixpoint visit_level (rec : ref -> result (list ref)) (level : list ref)
  : result (list ref) :=
  match level with
  | [] => Ok []
  | m :: rest =>
      sub <- rec m ;;
      tl <- visit_level rec rest ;;
      Ok (m :: sub ++ tl)
  end.

Fixpoint visit (fuel : nat) (h : heap) (all : list ref) (level : list ref)
  : result (list ref) :=
  match fuel with
  | 0 => RecursionError
  | S fuel' =>
      visit_level
        (fun m => match children h all m with
                  | [] => Ok []
                  | c => visit fuel' h all c
                  end)
        level
  end.

(** The loop body of [generateHierarchy], with the recursive call
    abstracted. *)
Definition gh_body (rec : lref -> heap * list ref -> result (heap * list ref))
    (self : Staff) (employee : ref) (st : heap * list ref)
  : result (heap * list ref) :=
  let (h, visited) := st in
  let visited := visited ++ [employee] in
  let (employees_new, h1) :=
    list_comp (fun x => reportsToId (emp h x) (id (emp h employee)))
              (s_employees self) h in
  if 0 <? List.length (lst h1 employees_new) then
    let h2 := setEmployees employee employees_new h1 in
    rec (employees (emp h2 employee)) (h2, visited)
  else Ok (h1, visited).

(** What the loop relies on: the roster list exists and holds [all], and
    the attributes of the employees are those of [h0]. *)
Definition roster_inv (h0 : heap) (all : list ref) (self : Staff) (h : heap)
  : Prop :=
  s_employees self < next h /\
  lst h (s_employees self) = all /\
  same_fields h0 h.

(** [post h0 all h T h']: [h'] is [h] after the employees of [T] were
    visited. *)
Definition post (h0 : heap) (all : list ref) (h : heap) (T : list ref)
    (h' : heap) : Prop :=
  frame h h' /\
  forall r,
    (In r T -> children h0 all r <> [] ->
     employees (emp h' r) < next h' /\ reports h' r = children h0 all r) /\
    (~ In r T \/ children h0 all r = [] ->
     employees (emp h' r) = employees (emp h r)).

(** How a run on the heap relates to the list computed by [visit]: both
    succeed, and the run appends that list to the log, or both exhaust
    the recursion depth. *)
Definition sim_result (h0 : heap) (all : list ref)
    (pure : result (list ref)) (run : result (heap * list ref))
    (h : heap) (vis : list ref) : Prop :=
  match pure with
  | Ok T => exists h', run = Ok (h', vis ++ T) /\ post h0 all h T h'
  | RecursionError => run = RecursionError
  | TypeError => False
  end.

(** ** The manager relation *)

(** [mgr h all x y]: employee [x] of the roster reports to employee [y] of
    the roster. *)
Definition mgr (h : heap) (all : list ref) (x y : ref) : Prop :=
  In x all /\ In y all /\ manager (emp h x) = Some (id (emp h y)).

(** The ids of the roster are pairwise distinct. *)
Definition unique_ids (h : heap) (all : list ref) : Prop :=
  forall a b, In a all -> In b all -> id (emp h a) = id (emp h b) -> a = b.

(** No employee reports to two employees of the roster (the ids that are
    referred to as managers are not shared). *)
Definition one_manager (h : heap) (all : list ref) : Prop :=
  forall c x p, In c all -> In x all -> In p all ->
    manager (emp h c) = Some (id (emp h x)) ->
    manager (emp h c) = Some (id (emp h p)) -> x = p.

(** A chain of command: each employee reports to the next one, and the
    last one has no manager. *)
Inductive chain (h : heap) : list ref -> Prop :=
| chain_nil : chain h []
| chain_root r : manager (emp h r) = None -> chain h [r]
| chain_cons c p P :
    manager (emp h c) = Some (id (emp h p)) -> chain h (p :: P) ->
    chain h (c :: p :: P).

(** [desc h all x c]: [c] is [x] or is above [x] in the chain of command. *)
Definition desc (h : heap) (all : list ref) (x c : ref) : Prop :=
  clos_refl_trans _ (mgr h all) x c.

Definition valid_managers (h : heap) (all : list ref) : Prop :=
  forall x, In x all ->
    manager (emp h x) = None \/
    exists m, In m all /\ manager (emp h x) = Some (id (emp h m)).

Definition acyclic (h : heap) (all : list ref) : Prop :=
  forall x, ~ clos_trans _ (mgr h all) x x.

(** The employees without a manager, in the order of [all]. *)
Definition root_list (h : heap) (all : list ref) : list ref :=
  filter (fun x => isOwner (emp h x)) all.

(** The roster and the top level, as functions of the caller's list. *)
Definition roster (h : heap) (l : lref) : list ref :=
  sort_by_name h (lst h l).

Definition roots (h : heap) (l : lref) : list ref :=
  root_list h (roster h l).

(** The heap [h'] left by [Staff(l)] started in [h], where [T] is the
    log of the employees the recursion went through. *)
Definition Staff_post (h : heap) (l : lref) (T : list ref) (h' : heap) : Prop :=
  lst h' l = roster h l /\
  lst h' (next h) = roots h l /\
  same_fields h h' /\
  (forall a, a < next h -> a <> l -> lst h' a = lst h a) /\
  forall r,
    (In r T -> children h (roster h l) r <> [] ->
     reports h' r = children h (roster h l) r) /\
    (~ In r T \/ children h (roster h l) r = [] ->
     employees (emp h' r) = employees (emp h r)).

(** The program's input: the list exists, and so do the lists the
    employees refer to. *)
Definition wf (h : heap) (l : lref) : Prop :=
  l < next h /\ forall r, In r (lst h l) -> employees (emp h r) < next h.

(** Employees as [Employee.__init__] leaves them: no reports yet. *)
Definition fresh (h : heap) (l : lref) : Prop :=
  forall r, In r (lst h l) -> reports h r = [].

(** The order of the sort: first names compared as strings. *)
Definition by_name (h : heap) : ref -> ref -> Prop :=
  key_le (fun x => first_name (emp h x)) String.leb.

(** The arithmetic sum of the salaries of a sequence of employees. *)
Definition salary_sum (h : heap) (l : list ref) : Z :=
  fold_right (fun x acc => (salary (emp h x) + acc)%Z) 0%Z l.

(** ** Rendering, as the specification words it *)

(** The loop body of [generateHierarchyString], with the recursive call
    abstracted. *)
Definition ghs_body (rec : lref -> Z -> Z -> result string) (h : heap)
    (depth tabWidth : Z) (employee : ref) (hierarchyString : string)
  : result string :=
  let prefix := spaces depth in
  let hierarchyString :=
    (hierarchyString ++ (prefix ++ first_name (emp h employee) ++ newline))%string in
  if isManager h employee then
    sub <- rec (employees (emp h employee)) (depth + tabWidth)%Z tabWidth ;;
    Ok (hierarchyString ++ sub)%string
  else Ok hierarchyString.

(** Depth-first pre-order listing of a level of the forest: every
    employee with its depth, followed by the listing of its reports one
    level deeper, before its next sibling. *)
Fixpoint preorder_level (depth : Z) (rec : list ref -> result (list (ref * Z)))
    (reports_of : ref -> list ref) (level : list ref)
  : result (list (ref * Z)) :=
  match level with
  | [] => Ok []
  | m :: rest =>
      sub <- match reports_of m with
             | [] => Ok []
             | c => rec c
             end ;;
      tl <- preorder_level depth rec reports_of rest ;;
      Ok ((m, depth) :: sub ++ tl)
  end.

Fixpoint preorder (fuel : nat) (h : heap) (level : list ref) (depth : Z)
  : result (list (ref * Z)) :=
  match fuel with
  | 0 => RecursionError
  | S fuel' =>
      preorder_level depth (fun c => preorder fuel' h c (depth + 1)%Z)
                     (reports h) level
  end.

(** One line of the rendering: [depth * tabWidth] spaces, the name, one
    newline. *)
Definition line (h : heap) (tabWidth : Z) (p : ref * Z) : string :=
  (spaces (snd p * tabWidth) ++ first_name (emp h (fst p)) ++ newline)%string.

Definition render_lines (h : heap) (tabWidth : Z) (ps : list (ref * Z)) : string :=
  fold_right String.append EmptyString (map (line h tabWidth) ps).

(** ** Further concrete inputs *)

(** An employee whose manager exists but is itself attached to nobody. *)
Definition scenario_unreachable_manager : list RawEmployee :=
  [ mkRaw 1 "x" 10 (Some 5%Z);
    mkRaw 2 "y" 20 (Some 1%Z) ].

(** The salary test of app.test.py. *)
Definition scenario_salary : list RawEmployee :=
  [ mkRaw 1 "jacob" 130000 None;
    mkRaw 2 "jacob" 130000 (Some 1%Z) ].

(** An employee whose manager id matches nobody. *)
Definition scenario_orphan : list RawEmployee :=
  [ mkRaw 1 "ann" 10 None;
    mkRaw 2 "bob" 20 (Some 1%Z);
    mkRaw 3 "cy" 30 (Some 7%Z) ].

(** ** The inputs the program builds *)

(** Every employee allocated so far refers to an existing, empty list. *)
Definition heap_ok (h : heap) : Prop :=
  forall r, r < nextE h ->
    employees (emp h r) < next h /\ lst h (employees (emp h r)) = [].

(** The record an employee was built from. *)
Definition raw_of (e : Employee) : RawEmployee :=
  mkRaw (id e) (first_name e) (salary e) (manager e).

(** Deciding the hypotheses on concrete inputs. *)
Ltac enum_In H :=
  vm_compute in H; repeat (destruct H as [H|H]; [subst|]); try contradiction.

Ltac concrete_wf :=
  split; [vm_compute; lia|intros ? Hr; enum_In Hr; vm_compute; lia].

Ltac concrete_fresh := intros ? Hr; enum_In Hr; reflexivity.

Ltac concrete_one_manager :=
  intros ? ? ? Hc Hx Hp; enum_In Hc; enum_In Hx; enum_In Hp;
  vm_compute; intros; congruence.

(** ** Reaching the top of the hierarchy *)

(** [reached h all x]: the chain of managers of [x] leads, through
    employees of [all], to an employee of [all] without a manager. *)
Definition reached (h : heap) (all : list ref) (x : ref) : Prop :=
  exists r, In r all /\ manager (emp h r) = None /\ desc h all x r.


(** Two employees sharing the id 1, the second one reporting to it. *)
Definition scenario_self_managed : list RawEmployee :=
  [ mkRaw 1 "a" 10 None;
    mkRaw 1 "b" 20 (Some 1%Z) ].

(** The hierarchy test of app.test.py (two employees with the id 2). *)
Definition scenario_test_hierarchy : list RawEmployee :=
  [ mkRaw 1 "jacob" 130000 None;
    mkRaw 2 "jacob" 130000 (Some 1%Z);
    mkRaw 2 "a" 130000 (Some 1%Z) ].

(** Two employees without a manager, the first one given the second one
    as its report before the staff is built:
    [a.setEmployees([b]); Staff([a, b])]. *)
Definition stale_input : lref * heap :=
  let (l, h0) := build_input [ mkRaw 1 "a" 10 None; mkRaw 2 "b" 20 None ] in
  let (l2, h1) := new_list [1] h0 in
  (l, setEmployees 0 l2 h1).


(** * Properties *)

(** ** The stable sort *)

Section StableSortFacts.
Context {A K : Type} (key : A -> K) (leb : K -> K -> bool).
Hypothesis leb_total : forall a b, leb a b = true \/ leb b a = true.

Lemma leb_refl a : leb a a = true.
Proof. destruct (leb_total a a); assumption. Qed.

Lemma insert_by_perm x l : Permutation (insert_by key leb x l) (x :: l).
Proof.
  induction l as [|y l IH]; simpl.
  - apply Permutation_refl.
  - destruct (leb (key x) (key y)).
    + apply Permutation_refl.
    + eapply perm_trans; [apply perm_skip, IH | apply perm_swap].
Qed.

Lemma sort_by_perm l : Permutation (sort_by key leb l) l.
Proof.
  induction l as [|x l IH]; simpl.
  - constructor.
  - eapply perm_trans; [apply insert_by_perm | apply perm_skip, IH].
Qed.

Lemma insert_by_sorted x l :
  Sorted (key_le key leb) l -> Sorted (key_le key leb) (insert_by key leb x l).
Proof.
  induction 1 as [|y l Hs IH Hd]; simpl.
  - repeat constructor.
  - destruct (leb (key x) (key y)) eqn:E.
    + constructor; [constructor; assumption | constructor; exact E].
    + constructor; [exact IH|].
      assert (Hyx : key_le key leb y x).
      { destruct (leb_total (key x) (key y)) as [H|H]; [congruence|exact H]. }
      destruct Hd as [|z l' Hyz]; simpl.
      * constructor; exact Hyx.
      * destruct (leb (key x) (key z)); constructor; assumption.
Qed.

Lemma sort_by_sorted l : Sorted (key_le key leb) (sort_by key leb l).
Proof.
  induction l as [|x l IH]; simpl.
  - constructor.
  - apply insert_by_sorted, IH.
Qed.

(** A sorted list is left as it is. *)
Lemma sort_by_fixed l : Sorted (key_le key leb) l -> sort_by key leb l = l.
Proof.
  induction 1 as [|x l Hs IH Hd]; simpl; [reflexivity|].
  rewrite IH. destruct Hd as [|y l' Hxy]; simpl; [reflexivity|].
  unfold key_le in Hxy. rewrite Hxy. reflexivity.
Qed.

Lemma sort_by_idem l :
  sort_by key leb (sort_by key leb l) = sort_by key leb l.
Proof. apply sort_by_fixed, sort_by_sorted. Qed.

(** Stability: the elements selected by a test on keys that only
    accepts keys equivalent for the order keep their relative order. *)
Section Stable.
Variable q : K -> bool.
Hypothesis q_class : forall a b, q a = true -> q b = true -> leb a b = true.

Lemma insert_by_filter x l :
  filter (fun y => q (key y)) (insert_by key leb x l)
  = filter (fun y => q (key y)) (x :: l).
Proof.
  induction l as [|y l IH]; simpl; [reflexivity|].
  destruct (leb (key x) (key y)) eqn:E; simpl; [reflexivity|].
  rewrite IH. simpl.
  destruct (q (key x)) eqn:Qx, (q (key y)) eqn:Qy; try reflexivity.
  rewrite (q_class Qx Qy) in E. discriminate.
Qed.

Lemma sort_by_filter l :
  filter (fun y => q (key y)) (sort_by key leb l)
  = filter (fun y => q (key y)) l.
Proof.
  induction l as [|x l IH]; simpl; [reflexivity|].
  rewrite insert_by_filter. simpl. rewrite IH. reflexivity.
Qed.
End Stable.

Lemma sort_by_In x l : In x (sort_by key leb l) <-> In x l.
Proof.
  split; apply Permutation_in;
    [apply sort_by_perm | apply Permutation_sym, sort_by_perm].
Qed.

Lemma sort_by_NoDup l : NoDup l -> NoDup (sort_by key leb l).
Proof.
  intro H. eapply Permutation_NoDup; [apply Permutation_sym, sort_by_perm|exact H].
Qed.

Lemma sort_by_nil l : sort_by key leb l = [] <-> l = [].
Proof.
  split; intro H.
  - apply Permutation_nil. rewrite <- H. apply sort_by_perm.
  - subst. reflexivity.
Qed.
End StableSortFacts.

Lemma sort_by_ext {A K : Type} (key1 key2 : A -> K) leb l :
  (forall x, key1 x = key2 x) -> sort_by key1 leb l = sort_by key2 leb l.
Proof.
  intro H. induction l as [|x l IH]; simpl; [reflexivity|].
  rewrite IH. generalize (sort_by key2 leb l). intro s.
  induction s as [|y s IHs]; simpl; [reflexivity|].
  rewrite !H, IHs. reflexivity.
Qed.

Lemma string_leb_total (a b : string) :
  String.leb a b = true \/ String.leb b a = true.
Proof. apply String.leb_total. Qed.

(** ** Heap updates *)

Lemma upd_same {V} (m : nat -> V) a v : upd m a v a = v.
Proof. unfold upd. rewrite Nat.eqb_refl. reflexivity. Qed.

Lemma upd_other {V} (m : nat -> V) a b v : b <> a -> upd m a v b = m b.
Proof. unfold upd. intro H. apply Nat.eqb_neq in H. rewrite H. reflexivity. Qed.

Lemma same_fields_refl h : same_fields h h.
Proof. intro r. repeat split. Qed.

Lemma same_fields_trans h1 h2 h3 :
  same_fields h1 h2 -> same_fields h2 h3 -> same_fields h1 h3.
Proof.
  intros H12 H23 r. destruct (H12 r) as (a & b & c & d).
  destruct (H23 r) as (a' & b' & c' & d'). repeat split; congruence.
Qed.

Lemma sort_by_name_same h h' l :
  same_fields h h' -> sort_by_name h' l = sort_by_name h l.
Proof. intro H. apply sort_by_ext. intro x. apply (H x). Qed.

Lemma reportsToId_same h h' x m :
  same_fields h h' ->
  reportsToId (emp h' x) (id (emp h' m)) = reportsToId (emp h x) (id (emp h m)).
Proof.
  intro H. unfold reportsToId.
  destruct (H x) as (_ & _ & _ & ->). destruct (H m) as (-> & _). reflexivity.
Qed.

Lemma isOwner_same h h' x :
  same_fields h h' -> isOwner (emp h' x) = isOwner (emp h x).
Proof. intro H. unfold isOwner. destruct (H x) as (_ & _ & _ & ->). reflexivity. Qed.

Lemma frame_refl h : frame h h.
Proof. repeat split; auto. Qed.

Lemma frame_trans h1 h2 h3 : frame h1 h2 -> frame h2 h3 -> frame h1 h3.
Proof.
  intros (n12 & l12 & f12) (n23 & l23 & f23). split; [lia|]. split.
  - intros l Hl. rewrite l23 by lia. apply l12, Hl.
  - eapply same_fields_trans; eassumption.
Qed.

Lemma new_list_frame v h : frame h (snd (new_list v h)).
Proof.
  unfold new_list; simpl. split; [simpl; lia|]. split.
  - intros l Hl. simpl. apply upd_other. lia.
  - intro r. simpl. repeat split.
Qed.

Lemma new_list_lookup v h : lst (snd (new_list v h)) (fst (new_list v h)) = v.
Proof. simpl. apply upd_same. Qed.

Lemma list_sort_same_fields l h : same_fields h (list_sort l h).
Proof. intro r. repeat split. Qed.

Lemma setEmployees_same_fields self l h : same_fields h (setEmployees self l h).
Proof.
  intro r. unfold setEmployees, set_emp; simpl. unfold upd.
  destruct (Nat.eqb r self) eqn:E; simpl.
  - apply Nat.eqb_eq in E. subst. repeat split.
  - repeat split.
Qed.

Lemma children_same h h' all m :
  same_fields h h' -> children h' all m = children h all m.
Proof.
  intro H. unfold children. rewrite (sort_by_name_same _ H). f_equal.
  apply filter_ext. intro x. apply reportsToId_same, H.
Qed.

(** ** The construction computes the hierarchy *)

Lemma generateHierarchy_unfold fuel self hl st :
  generateHierarchy (S fuel) self hl st
  = forEach (gh_body (generateHierarchy fuel self) self) (lst (fst st) hl) st.
Proof. reflexivity. Qed.

Section Simulation.
Variable h0 : heap.         (* gives the attributes of the employees *)
Variable all : list ref.    (* the sorted roster *)
Variable self : Staff.

Lemma roster_inv_frame h h' : roster_inv h0 all self h -> frame h h' -> roster_inv h0 all self h'.
Proof.
  intros (Hn & Hl & Hf) (Fn & Fl & Ff). split; [lia|]. split.
  - rewrite Fl by exact Hn. exact Hl.
  - eapply same_fields_trans; eassumption.
Qed.

Lemma post_nil h : post h0 all h [] h.
Proof.
  split; [apply frame_refl|]. intro r. split.
  - intros [].
  - reflexivity.
Qed.

Lemma post_app h1 T1 h2 T2 h3 :
  post h0 all h1 T1 h2 -> post h0 all h2 T2 h3 -> post h0 all h1 (T1 ++ T2) h3.
Proof.
  intros (F12 & P12) (F23 & P23). split; [eapply frame_trans; eassumption|].
  intro r. destruct (P12 r) as (A12 & B12). destruct (P23 r) as (A23 & B23).
  split.
  - intros Hin Hc.
    destruct (in_dec Nat.eq_dec r T2) as [H2|H2]; [apply A23; assumption|].
    apply in_app_or in Hin. destruct Hin as [H1|H1]; [|contradiction].
    destruct (A12 H1 Hc) as (Hlt & Hrep).
    assert (E : employees (emp h3 r) = employees (emp h2 r)) by (apply B23; auto).
    destruct F23 as (Fn & Fl & _). unfold reports in *. rewrite E. split; [lia|].
    rewrite Fl by exact Hlt. exact Hrep.
  - intros Hno. rewrite B23, B12; [reflexivity| |].
    + destruct Hno as [Hno|Hno]; [left|right; exact Hno].
      intro H. apply Hno, in_or_app. auto.
    + destruct Hno as [Hno|Hno]; [left|right; exact Hno].
      intro H. apply Hno, in_or_app. auto.
Qed.

Lemma roster_filter h m :
  roster_inv h0 all self h ->
  sort_by_name h
    (filter (fun x => reportsToId (emp h x) (id (emp h m)))
            (lst h (s_employees self)))
  = children h0 all m.
Proof.
  intros (_ & Hl & Hf). rewrite Hl. apply (@children_same h0 h all m Hf).
Qed.

(** An employee nobody reports to: the comprehension's list is dropped. *)
Lemma gh_body_leaf rec h vis m :
  roster_inv h0 all self h -> children h0 all m = [] ->
  exists h1, gh_body rec self m (h, vis) = Ok (h1, vis ++ [m]) /\ post h0 all h [m] h1.
Proof.
  intros Hinv Hc. pose proof (roster_filter m Hinv) as Hf.
  rewrite Hc in Hf. apply sort_by_nil in Hf.
  unfold gh_body, list_comp. rewrite Hf. simpl. rewrite upd_same. simpl.
  eexists. split; [reflexivity|]. split.
  - apply (new_list_frame [] h).
  - intro r. split; [|reflexivity].
    intros [<-|[]] Hne. contradiction.
Qed.

(** An employee with reports: they are stored, sorted, in a new list. *)
Lemma gh_body_node rec h vis m :
  roster_inv h0 all self h -> children h0 all m <> [] ->
  exists h2, gh_body rec self m (h, vis) = rec (next h) (h2, vis ++ [m]) /\
             post h0 all h [m] h2 /\ lst h2 (next h) = children h0 all m.
Proof.
  intros Hinv Hc. pose proof (roster_filter m Hinv) as Hf.
  unfold gh_body, list_comp, new_list.
  set (F := filter _ _) in *.
  assert (HF : F <> []).
  { intro E. apply Hc. rewrite <- Hf, E. reflexivity. }
  cbv zeta. cbn [lst]. rewrite upd_same.
  destruct F as [|a F'] eqn:EF; [contradiction|].
  replace (0 <? List.length (a :: F')) with true by reflexivity.
  set (h1 := mkHeap _ _ _ _).
  assert (Hs : sort_by_name h1 (a :: F') = children h0 all m).
  { rewrite <- Hf. apply sort_by_ext. reflexivity. }
  exists (setEmployees m (next h) h1).
  assert (Hl : lst (setEmployees m (next h) h1) (next h) = children h0 all m).
  { unfold setEmployees, list_sort, set_lst, set_emp. cbn [lst emp].
    rewrite upd_same. unfold h1 at 2. cbn [lst]. rewrite upd_same. exact Hs. }
  assert (He : employees (emp (setEmployees m (next h) h1) m) = next h).
  { unfold setEmployees, set_emp. cbn [emp]. rewrite upd_same. reflexivity. }
  split; [rewrite He; reflexivity|]. split; [|exact Hl].
  split.
  - split; [simpl; lia|]. split.
    + intros l Hlt. unfold setEmployees, list_sort, set_lst, set_emp, h1.
      cbn [lst emp]. rewrite !upd_other by lia. reflexivity.
    + eapply same_fields_trans; [|apply setEmployees_same_fields].
      intro r. simpl. repeat split.
  - intro r. split.
    + intros [<-|[]] _. unfold reports. rewrite He. split; [simpl; lia|exact Hl].
    + intros Hno.
      assert (r <> m).
      { intro; subst r. destruct Hno as [Hno|Hno]; [|contradiction].
        apply Hno; left; reflexivity. }
      unfold setEmployees, set_emp. cbn [emp]. rewrite upd_other by assumption.
      reflexivity.
Qed.
End Simulation.

Lemma loop_sim h0 all self rec prec :
  (forall hl h vis, roster_inv h0 all self h ->
     sim_result h0 all (prec (lst h hl)) (rec hl (h, vis)) h vis) ->
  forall level h vis, roster_inv h0 all self h ->
    sim_result h0 all
      (visit_level (fun m => match children h0 all m with
                             | [] => Ok []
                             | c => prec c
                             end) level)
      (forEach (gh_body rec self) level (h, vis)) h vis.
Proof.
  intros Hrec level. induction level as [|m rest IH]; intros h vis Hinv.
  - cbn. exists h. rewrite app_nil_r. split; [reflexivity|apply post_nil].
  - cbn [visit_level forEach].
    destruct (children h0 all m) as [|a c'] eqn:Ec.
    + destruct (gh_body_leaf rec vis m Hinv Ec) as (h1 & E1 & P1).
      rewrite E1. cbn [bind].
      specialize (IH h1 (vis ++ [m]) (roster_inv_frame Hinv (proj1 P1))).
      destruct (visit_level _ rest) as [tl| |]; cbn [bind sim_result] in *;
        [|exact IH|exact IH].
      destruct IH as (h' & E' & P'). exists h'. split.
      * rewrite E', <- app_assoc. reflexivity.
      * apply (post_app P1 P').
    + assert (Hc : children h0 all m <> []) by (rewrite Ec; discriminate).
      destruct (gh_body_node rec vis m Hinv Hc) as (h2 & E2 & P2 & L2).
      rewrite E2.
      pose proof (Hrec (next h) h2 (vis ++ [m])
                    (roster_inv_frame Hinv (proj1 P2))) as Hr.
      rewrite L2, Ec in Hr.
      destruct (prec (a :: c')) as [sub| |]; cbn [bind sim_result] in *;
        [|contradiction|rewrite Hr; reflexivity].
      destruct Hr as (h3 & E3 & P3). rewrite E3. cbn [bind].
      pose proof (post_app P2 P3) as P23.
      specialize (IH h3 ((vis ++ [m]) ++ sub)
                    (roster_inv_frame Hinv (proj1 P23))).
      destruct (visit_level _ rest) as [tl| |]; cbn [bind sim_result] in *;
        [|exact IH|exact IH].
      destruct IH as (h' & E' & P'). exists h'. split.
      * rewrite E', <- !app_assoc. reflexivity.
      * apply (post_app P23 P').
Qed.

Theorem generateHierarchy_visit h0 all self fuel :
  forall hl h vis, roster_inv h0 all self h ->
    sim_result h0 all (visit fuel h0 all (lst h hl))
      (generateHierarchy fuel self hl (h, vis)) h vis.
Proof.
  induction fuel as [|fuel IH]; intros hl h vis Hinv.
  - reflexivity.
  - rewrite generateHierarchy_unfold. cbn [fst visit].
    apply (@loop_sim h0 all self (generateHierarchy fuel self)
                     (visit fuel h0 all)); assumption.
Qed.

(** The lists that exist when the recursion starts are not modified by
    it, nor are the attributes of the employees. *)
Corollary generateHierarchy_frame fuel self hl h vis h' vis' :
  s_employees self < next h ->
  generateHierarchy fuel self hl (h, vis) = Ok (h', vis') ->
  frame h h'.
Proof.
  intros Hn Hrun.
  assert (Hinv : roster_inv h (lst h (s_employees self)) self h).
  { split; [exact Hn|]. split; [reflexivity|apply same_fields_refl]. }
  pose proof (generateHierarchy_visit fuel hl vis Hinv) as Hs.
  unfold sim_result in Hs.
  destruct (visit fuel h _ (lst h hl)); [|contradiction|congruence].
  destruct Hs as (h'' & E & P). rewrite Hrun in E. injection E as <- _.
  apply P.
Qed.

(** ** [Staff.__init__] *)

Theorem Staff_init_visit fuel l h :
  l < next h ->
  match visit fuel h (roster h l) (roots h l) with
  | Ok T => exists h', Staff_init fuel l h = Ok (mkStaff l (next h), h', T) /\
                       Staff_post h l T h'
  | RecursionError => Staff_init fuel l h = RecursionError
  | TypeError => False
  end.
Proof.
  intro Hl. unfold Staff_init, list_comp, new_list.
  set (h1 := list_sort l h). cbv zeta. cbn [s_hierarchy].
  set (h2 := mkHeap _ _ _ _).
  assert (E1 : lst h1 l = roster h l).
  { unfold h1, list_sort, set_lst. cbn [lst]. apply upd_same. }
  assert (E2l : lst h2 l = roster h l).
  { unfold h2. cbn [lst]. rewrite upd_other by (unfold h1; simpl; lia). exact E1. }
  assert (E2r : lst h2 (next h) = roots h l).
  { unfold h2. cbn [lst]. change (next h1) with (next h). rewrite upd_same, E1.
    reflexivity. }
  assert (E2o : forall a, a < next h -> a <> l -> lst h2 a = lst h a).
  { intros a Ha Hne. unfold h2, h1, list_sort, set_lst. cbn [lst next].
    rewrite !upd_other by lia. reflexivity. }
  assert (Hinv : roster_inv h (roster h l) (mkStaff l (next h)) h2).
  { split; [simpl; lia|]. split; [exact E2l|]. intro r. simpl. repeat split. }
  pose proof (generateHierarchy_visit fuel (next h) [] Hinv) as Hs.
  change (next h1) with (next h). rewrite E2r in Hs. unfold sim_result in Hs.
  destruct (visit fuel h (roster h l) (roots h l)) as [T| |];
    [|exact Hs|rewrite Hs; reflexivity].
  destruct Hs as (h' & E & (Fn & Fl & Ff) & P). rewrite E. cbn [bind app].
  exists h'. split; [reflexivity|]. change (next h2) with (S (next h)) in *.
  split; [rewrite Fl by lia; exact E2l|].
  split; [rewrite Fl by lia; exact E2r|].
  split; [intro r; apply (Ff r)|].
  split; [intros a Ha Hne; rewrite Fl by lia; apply E2o; assumption|].
  intro r. destruct (P r) as (A & B). split.
  - intros Hin Hc. apply A; assumption.
  - intro Hno. apply B, Hno.
Qed.

Lemma roster_In h l r : In r (roster h l) <-> In r (lst h l).
Proof. apply sort_by_In. Qed.

(** After the construction, the reports of an employee of the roster are
    its children if the recursion went through it, and none otherwise. *)
Lemma Staff_post_reports h l T h' r :
  wf h l -> fresh h l -> Staff_post h l T h' -> In r (lst h l) ->
  reports h' r = if in_dec Nat.eq_dec r T then children h (roster h l) r else [].
Proof.
  intros (Hl & Hwf) Hfr (_ & _ & _ & Ho & P) Hr.
  destruct (P r) as (A & B).
  assert (Hold : employees (emp h' r) = employees (emp h r) -> reports h' r = []).
  { intro E. unfold reports. rewrite E. rewrite Ho.
    - apply (Hfr r Hr).
    - apply Hwf, Hr.
    - intro El. pose proof (Hfr r Hr) as Hnil. unfold reports in Hnil.
      rewrite El in Hnil. rewrite Hnil in Hr. destruct Hr. }
  destruct (in_dec Nat.eq_dec r T) as [Hin|Hin].
  - destruct (children h (roster h l) r) as [|a c] eqn:Ec.
    + apply Hold, B. right; reflexivity.
    + apply A; [exact Hin|discriminate].
  - apply Hold, B. left; exact Hin.
Qed.

(** ** The traversal *)

Lemma visit_level_inv rec m rest T :
  visit_level rec (m :: rest) = Ok T ->
  exists sub tl, rec m = Ok sub /\ visit_level rec rest = Ok tl /\
                 T = m :: sub ++ tl.
Proof.
  cbn [visit_level]. destruct (rec m) as [sub| |]; cbn [bind]; try discriminate.
  destruct (visit_level rec rest) as [tl| |]; cbn [bind]; try discriminate.
  intro E. injection E as <-. eauto.
Qed.

Lemma visit_level_In rec level T :
  visit_level rec level = Ok T ->
  forall x, In x T <->
            exists m sub, In m level /\ rec m = Ok sub /\ (x = m \/ In x sub).
Proof.
  revert T. induction level as [|m rest IH]; intros T HT x.
  - injection HT as <-. split; [intros []|intros (? & ? & [] & _)].
  - apply visit_level_inv in HT. destruct HT as (sub & tl & Hm & Hrest & ->).
    specialize (IH tl Hrest x). split.
    + intros [<-|Hin].
      * exists m, sub. auto using in_eq.
      * apply in_app_or in Hin. destruct Hin as [Hin|Hin].
        -- exists m, sub. auto using in_eq.
        -- apply IH in Hin. destruct Hin as (m' & sub' & H1 & H2 & H3).
           exists m', sub'. auto using in_cons.
    + intros (m' & sub' & [<-|H1] & H2 & H3).
      * rewrite Hm in H2. injection H2 as <-.
        destruct H3 as [->|H3]; [left; reflexivity|].
        right. apply in_or_app. left. exact H3.
      * right. apply in_or_app. right. apply IH. eauto.
Qed.

Lemma visit_level_ok rec level :
  (forall m, In m level -> exists T, rec m = Ok T) ->
  exists T, visit_level rec level = Ok T.
Proof.
  induction level as [|m rest IH]; intro H.
  - exists []. reflexivity.
  - destruct (H m (in_eq _ _)) as (sub & Hsub).
    destruct IH as (tl & Htl); [intros; apply H, in_cons; assumption|].
    exists (m :: sub ++ tl). cbn [visit_level]. rewrite Hsub, Htl. reflexivity.
Qed.

Lemma visit_level_rec_ok rec level T :
  visit_level rec level = Ok T ->
  forall m, In m level -> exists sub, rec m = Ok sub.
Proof.
  revert T. induction level as [|m0 rest IH]; intros T HT m Hm; [destruct Hm|].
  apply visit_level_inv in HT. destruct HT as (sub & tl & Hm0 & Hr & _).
  destruct Hm as [<-|Hm]; eauto.
Qed.

Lemma visit_level_NoDup rec level T :
  visit_level rec level = Ok T ->
  NoDup level ->
  (forall m sub, In m level -> rec m = Ok sub -> NoDup sub /\ ~ In m sub) ->
  (forall m1 m2 sub1 sub2 x,
     In m1 level -> In m2 level -> rec m1 = Ok sub1 -> rec m2 = Ok sub2 ->
     x = m1 \/ In x sub1 -> x = m2 \/ In x sub2 -> m1 = m2) ->
  NoDup T.
Proof.
  revert T. induction level as [|m rest IH]; intros T HT Hnd Hsub Hdis.
  - injection HT as <-. constructor.
  - pose proof HT as HT'. apply visit_level_inv in HT'.
    destruct HT' as (sub & tl & Hm & Hrest & ->).
    apply NoDup_cons_iff in Hnd. destruct Hnd as (Hm_rest & Hnd).
    destruct (Hsub m sub (in_eq _ _) Hm) as (Hnd_sub & Hm_sub).
    assert (Htl : forall x, In x tl -> x = m \/ In x sub -> False).
    { intros x Hx Hx'. apply (visit_level_In _ _ Hrest) in Hx.
      destruct Hx as (m2 & sub2 & H1 & H2 & H3).
      assert (m = m2) by (eapply (Hdis m m2 sub sub2 x); auto using in_eq, in_cons).
      subst m2. contradiction. }
    constructor.
    + intro Hin. apply in_app_or in Hin. destruct Hin as [Hin|Hin];
        [contradiction|]. apply (Htl m Hin). left; reflexivity.
    + apply NoDup_app; [exact Hnd_sub| |].
      * apply IH; [exact Hrest|exact Hnd| |].
        -- intros; apply (Hsub m0); auto using in_cons.
        -- intros m1 m2 sub1 sub2 x H1 H2. apply Hdis; auto using in_cons.
      * intros x Hx Hx'. apply (Htl x Hx'). right; exact Hx.
Qed.

Lemma unique_ids_one_manager h all : unique_ids h all -> one_manager h all.
Proof.
  intros Hu c x p _ Hx Hp Ex Ep. apply Hu; auto. congruence.
Qed.

Section Graph.
Variable h : heap.
Variable all : list ref.

Lemma reportsToId_true e i :
  reportsToId e i = true <-> manager e = Some i.
Proof.
  unfold reportsToId. destruct (manager e) as [m|].
  - rewrite Z.eqb_eq. split; congruence.
  - split; discriminate.
Qed.

Lemma children_In c m :
  In c (children h all m) <->
  In c all /\ manager (emp h c) = Some (id (emp h m)).
Proof.
  unfold children, sort_by_name.
  rewrite sort_by_In, filter_In, reportsToId_true.
  reflexivity.
Qed.

Lemma children_NoDup m : NoDup all -> NoDup (children h all m).
Proof.
  intro H. apply sort_by_NoDup, NoDup_filter, H.
Qed.

Lemma visit_unfold fuel level :
  visit (S fuel) h all level
  = visit_level (fun m => match children h all m with
                          | [] => Ok []
                          | c => visit fuel h all c
                          end) level.
Proof. reflexivity. Qed.

(** *** Termination when no employee has two managers *)

Lemma chain_mgr_tail P :
  one_manager h all -> chain h P -> incl P all ->
  forall c x, In c P -> In x all ->
              manager (emp h c) = Some (id (emp h x)) -> In x (tl P).
Proof.
  intros Hu Hc. induction Hc as [|r Hr|c0 p P Hm Hc IH]; intros Hincl c x Hin Hx Hmx.
  - destruct Hin.
  - destruct Hin as [<-|[]]. congruence.
  - cbn [tl]. destruct Hin as [<-|Hin].
    + left. apply (Hu c0 p x); auto using in_eq, in_cons.
    + right. apply (IH (fun y Hy => Hincl y (in_cons _ _ _ Hy)) c x); assumption.
Qed.

Lemma visit_terminates_aux :
  one_manager h all ->
  forall fuel P level,
    chain h P -> NoDup P -> incl P all -> incl level all ->
    (forall c, In c level ->
               manager (emp h c) = match P with
                                   | [] => None
                                   | p :: _ => Some (id (emp h p))
                                   end) ->
    List.length all < fuel + List.length P ->
    exists T, visit fuel h all level = Ok T.
Proof.
  intros Hu. induction fuel as [|fuel IH]; intros P level Hc Hnd HP Hlevel Hm Hlen.
  - pose proof (NoDup_incl_length Hnd HP). simpl in Hlen. lia.
  - rewrite visit_unfold. apply visit_level_ok. intros m Hin.
    destruct (children h all m) as [|a cs] eqn:Ec; [eexists; reflexivity|].
    rewrite <- Ec.
    assert (Hma : In m all) by (apply Hlevel, Hin).
    apply (IH (m :: P)).
    + specialize (Hm m Hin). destruct P as [|p P'].
      * apply chain_root, Hm.
      * apply chain_cons; assumption.
    + constructor; [|exact Hnd]. intro HmP.
      destruct P as [|p P']; [destruct HmP|].
      pose proof (chain_mgr_tail Hu Hc HP m p HmP
                    (HP p (in_eq _ _)) (Hm m Hin)) as Hp.
      cbn [tl] in Hp. apply NoDup_cons_iff in Hnd. tauto.
    + intros y [<-|Hy]; [exact Hma|apply HP, Hy].
    + intros c Hcin. apply children_In in Hcin. tauto.
    + intros c Hcin. apply children_In in Hcin. tauto.
    + simpl. lia.
Qed.

Theorem visit_terminates fuel :
  one_manager h all -> List.length all < fuel ->
  exists T, visit fuel h all (root_list h all) = Ok T.
Proof.
  intros Hu Hlen. apply (@visit_terminates_aux Hu fuel []).
  - constructor.
  - constructor.
  - intros x [].
  - intros x Hx. apply filter_In in Hx. tauto.
  - intros c Hc. apply filter_In in Hc. destruct Hc as (_ & Hc).
    unfold isOwner in Hc. destruct (manager (emp h c)); [discriminate|reflexivity].
  - simpl. lia.
Qed.
End Graph.

(** ** The employees the traversal reaches *)

Section Forest.
Variable h : heap.
Variable all : list ref.

Lemma root_list_In r :
  In r (root_list h all) <-> In r all /\ manager (emp h r) = None.
Proof.
  unfold root_list, isOwner. rewrite filter_In.
  destruct (manager (emp h r)); split; intros (? & ?); split;
    auto; discriminate.
Qed.

Lemma desc_In x c : In c all -> desc h all x c -> In x all.
Proof.
  intros Hc Hd. apply clos_rt_rt1n in Hd. destruct Hd as [|y z Hxy _].
  - exact Hc.
  - apply Hxy.
Qed.

Lemma children_mgr c m : In m all -> In c (children h all m) -> mgr h all c m.
Proof.
  intros Hm Hc. apply children_In in Hc. destruct Hc. repeat split; assumption.
Qed.

Lemma mgr_children c m : mgr h all c m -> In c (children h all m).
Proof. intros (Hc & _ & Hm). apply children_In. split; assumption. Qed.

(** Everything the traversal lists is below an employee of the level
    it started from. *)
Lemma visit_sound fuel :
  forall level T, visit fuel h all level = Ok T -> incl level all ->
    forall x, In x T -> exists c, In c level /\ desc h all x c.
Proof.
  induction fuel as [|fuel IH]; intros level T HT Hincl x Hx; [discriminate|].
  rewrite visit_unfold in HT. apply (visit_level_In _ _ HT) in Hx.
  destruct Hx as (m & sub & Hm & Hsub & Hx). exists m. split; [exact Hm|].
  destruct Hx as [->|Hx]; [apply rt_refl|].
  destruct (children h all m) as [|a cs] eqn:Ec.
  - injection Hsub as <-. destruct Hx.
  - rewrite <- Ec in Hsub.
    destruct (IH _ _ Hsub) with (x := x) as (c & Hc & Hd).
    + intros y Hy. apply children_In in Hy. tauto.
    + exact Hx.
    + eapply rt_trans; [exact Hd|]. apply rt_step.
      apply children_mgr; [apply Hincl, Hm|exact Hc].
Qed.

(** It lists everything below the employees of the level. *)
Lemma visit_complete c x :
  desc h all x c ->
  forall fuel level T, visit fuel h all level = Ok T -> In c level -> In x T.
Proof.
  intro Hd. apply clos_rt_rtn1 in Hd.
  induction Hd as [|y c Hstep Hd IH]; intros fuel level T HT Hc;
    (destruct fuel as [|fuel]; [discriminate|]); rewrite visit_unfold in HT.
  - destruct (visit_level_rec_ok _ _ HT _ Hc) as (sub & Hsub).
    apply (visit_level_In _ _ HT). exists x, sub. auto.
  - destruct (visit_level_rec_ok _ _ HT _ Hc) as (sub & Hsub).
    apply (visit_level_In _ _ HT). exists c, sub.
    split; [exact Hc|]. split; [exact Hsub|]. right.
    pose proof (mgr_children Hstep) as Hy.
    destruct (children h all c) as [|a cs] eqn:Ec; [destruct Hy|].
    rewrite <- Ec in *. apply (IH fuel (children h all c) sub Hsub Hy).
Qed.
End Forest.

(** ** A valid forest is traversed once *)

Section ForestOnce.
Variable h : heap.
Variable all : list ref.
Hypothesis Hu : one_manager h all.
Hypothesis Hac : acyclic h all.

Lemma mgr_functional x y y' : mgr h all x y -> mgr h all x y' -> y = y'.
Proof.
  intros (Hx & Hy & E) (_ & Hy' & E'). apply (Hu x y y'); assumption.
Qed.

Lemma mgr_no_cycle c m : mgr h all c m -> desc h all m c -> False.
Proof.
  intros Hstep Hd. apply (Hac (x := m)).
  eapply clos_rt_t; [exact Hd|apply t_step, Hstep].
Qed.

(** The employees above a given one are linearly ordered. *)
Lemma desc_chain x a b :
  desc h all x a -> desc h all x b -> desc h all a b \/ desc h all b a.
Proof.
  intro Ha. apply clos_rt_rt1n in Ha. revert b.
  induction Ha as [x|x y a Hxy Hya IH]; intros b Hb.
  - left; exact Hb.
  - apply clos_rt_rt1n in Hb. destruct Hb as [|y' b Hxy' Hyb].
    + right. apply clos_rt1n_rt. econstructor; eassumption.
    + rewrite <- (mgr_functional Hxy Hxy') in Hyb.
      apply IH, clos_rt1n_rt, Hyb.
Qed.

Lemma siblings_incomparable m c1 c2 x :
  mgr h all c1 m -> mgr h all c2 m ->
  desc h all x c1 -> desc h all x c2 -> c1 = c2.
Proof.
  assert (Hw : forall c1 c2, mgr h all c1 m -> mgr h all c2 m ->
                             desc h all c1 c2 -> c1 = c2).
  { intros a b Ha Hb Hd. apply clos_rt_rt1n in Hd.
    destruct Hd as [|y b Hay Hyb]; [reflexivity|].
    rewrite (mgr_functional Hay Ha) in Hyb. apply clos_rt1n_rt in Hyb.
    destruct (mgr_no_cycle Hb Hyb). }
  intros H1 H2 D1 D2. destruct (desc_chain D1 D2) as [D|D].
  - apply Hw; assumption.
  - symmetry. apply Hw; assumption.
Qed.

Lemma roots_incomparable r1 r2 x :
  manager (emp h r1) = None -> manager (emp h r2) = None ->
  desc h all x r1 -> desc h all x r2 -> r1 = r2.
Proof.
  assert (Hw : forall r1 r2, manager (emp h r1) = None ->
                             desc h all r1 r2 -> r1 = r2).
  { intros a b Ha Hd. apply clos_rt_rt1n in Hd.
    destruct Hd as [|y b (_ & _ & Hay) _]; [reflexivity|congruence]. }
  intros H1 H2 D1 D2. destruct (desc_chain D1 D2) as [D|D].
  - apply Hw; assumption.
  - symmetry. apply Hw; assumption.
Qed.

Lemma rec_desc fuel m sub x :
  In m all ->
  match children h all m with
  | [] => Ok []
  | c => visit fuel h all c
  end = Ok sub ->
  In x sub -> exists c, mgr h all c m /\ desc h all x c.
Proof.
  intros Hm Hsub Hx. destruct (children h all m) as [|a cs] eqn:Ec.
  - injection Hsub as <-. destruct Hx.
  - rewrite <- Ec in Hsub.
    assert (Hincl : incl (children h all m) all).
    { intros y Hy. apply children_In in Hy. tauto. }
    destruct (@visit_sound h all _ _ _ Hsub Hincl x Hx) as (c & Hc & Hd).
    exists c. split; [apply children_mgr; assumption|exact Hd].
Qed.

Lemma visit_NoDup fuel :
  NoDup all ->
  forall level T, visit fuel h all level = Ok T ->
    incl level all -> NoDup level ->
    (forall c1 c2 x, In c1 level -> In c2 level ->
                     desc h all x c1 -> desc h all x c2 -> c1 = c2) ->
    NoDup T.
Proof.
  intro Hnd. induction fuel as [|fuel IH]; intros level T HT Hincl Hl Hinc;
    [discriminate|].
  rewrite visit_unfold in HT.
  assert (Hbelow : forall m sub x, In m level ->
            match children h all m with
            | [] => Ok []
            | c => visit fuel h all c
            end = Ok sub ->
            x = m \/ In x sub -> desc h all x m).
  { intros m sub x Hm Hsub [->|Hx]; [apply rt_refl|].
    destruct (@rec_desc fuel m sub x (Hincl m Hm) Hsub Hx) as (c & Hc & Hd).
    eapply rt_trans; [exact Hd|apply rt_step, Hc]. }
  eapply visit_level_NoDup; [exact HT|exact Hl| |].
  - intros m sub Hm Hsub. cbv beta in Hsub. split.
    + destruct (children h all m) as [|a cs] eqn:Ec.
      * injection Hsub as <-. constructor.
      * rewrite <- Ec in Hsub. apply (IH _ _ Hsub).
        -- intros y Hy. apply children_In in Hy. tauto.
        -- apply children_NoDup, Hnd.
        -- intros c1 c2 x H1 H2. apply (@siblings_incomparable m);
             apply children_mgr; auto.
    + intro Hin.
      destruct (@rec_desc fuel m sub m (Hincl m Hm) Hsub Hin) as (c & Hc & Hd).
      exact (mgr_no_cycle Hc Hd).
  - intros m1 m2 sub1 sub2 x H1 H2 S1 S2 X1 X2. cbv beta in S1, S2.
    apply (Hinc m1 m2 x); eauto.
Qed.

Hypothesis Hvalid : valid_managers h all.

Lemma reach_root_aux n :
  forall P y, NoDup P -> incl P all -> In y P ->
    (forall p, In p P -> desc h all p y) ->
    List.length all - List.length P <= n ->
    exists r, In r all /\ manager (emp h r) = None /\ desc h all y r.
Proof.
  induction n as [|n IH]; intros P y Hnd Hincl Hy Hd Hlen.
  - destruct (Hvalid y (Hincl y Hy)) as [Hroot|(m & Hm & Hmgr)].
    + exists y. split; [apply Hincl, Hy|]. split; [exact Hroot|apply rt_refl].
    + assert (Hstep : mgr h all y m) by (repeat split; auto).
      assert (HnP : NoDup (m :: P)).
      { constructor; [|exact Hnd]. intro HmP. exact (mgr_no_cycle Hstep (Hd m HmP)). }
      assert (HiP : incl (m :: P) all) by (intros z [<-|Hz]; auto).
      pose proof (NoDup_incl_length HnP HiP) as Hle. simpl in Hle. lia.
  - destruct (Hvalid y (Hincl y Hy)) as [Hroot|(m & Hm & Hmgr)].
    + exists y. split; [apply Hincl, Hy|]. split; [exact Hroot|apply rt_refl].
    + assert (Hstep : mgr h all y m) by (repeat split; auto).
      assert (HnP : NoDup (m :: P)).
      { constructor; [|exact Hnd]. intro HmP. exact (mgr_no_cycle Hstep (Hd m HmP)). }
      assert (HiP : incl (m :: P) all) by (intros z [<-|Hz]; auto).
      destruct (IH (m :: P) m HnP HiP (in_eq _ _)) as (r & Hr & Hroot & Hdr).
      * intros p [<-|Hp]; [apply rt_refl|].
        eapply rt_trans; [apply Hd, Hp|apply rt_step, Hstep].
      * simpl. lia.
      * exists r. split; [exact Hr|]. split; [exact Hroot|].
        eapply rt_trans; [apply rt_step, Hstep|exact Hdr].
Qed.

Lemma reach_root y :
  In y all ->
  exists r, In r (root_list h all) /\ desc h all y r.
Proof.
  intro Hy.
  destruct (@reach_root_aux (List.length all) [y] y) as (r & Hr & Hroot & Hd).
  - constructor; [intros []|constructor].
  - intros z [<-|[]]. exact Hy.
  - left; reflexivity.
  - intros p [<-|[]]. apply rt_refl.
  - lia.
  - exists r. split; [apply root_list_In; auto|exact Hd].
Qed.

(** In a valid forest the traversal from the top level goes through
    every employee of the roster exactly once. *)
Theorem visit_once fuel T :
  NoDup all ->
  visit fuel h all (root_list h all) = Ok T ->
  Permutation T all.
Proof.
  intros Hnd HT.
  assert (Hincl : incl (root_list h all) all).
  { intros r Hr. apply root_list_In in Hr. tauto. }
  apply NoDup_Permutation; [|exact Hnd|].
  - apply (@visit_NoDup fuel Hnd _ _ HT Hincl).
    + apply NoDup_filter, Hnd.
    + intros r1 r2 x H1 H2. apply root_list_In in H1, H2.
      apply roots_incomparable; tauto.
  - intro x. split.
    + intro Hx. destruct (@visit_sound h all _ _ _ HT Hincl x Hx) as (c & Hc & Hd).
      apply (desc_In (Hincl c Hc) Hd).
    + intro Hx. destruct (reach_root x Hx) as (r & Hr & Hd).
      eapply visit_complete; eassumption.
Qed.
End ForestOnce.

(** ** Rendering *)

Lemma string_app_assoc (a b c : string) :
  ((a ++ b) ++ c)%string = (a ++ (b ++ c))%string.
Proof. induction a as [|x a IH]; simpl; [reflexivity|rewrite IH; reflexivity]. Qed.

Lemma string_app_nil_r (a : string) : (a ++ EmptyString)%string = a.
Proof. induction a as [|x a IH]; simpl; [reflexivity|rewrite IH; reflexivity]. Qed.

Lemma render_lines_app h tw ps qs :
  render_lines h tw (ps ++ qs)
  = (render_lines h tw ps ++ render_lines h tw qs)%string.
Proof.
  unfold render_lines. induction ps as [|p ps IH]; simpl; [reflexivity|].
  rewrite IH, string_app_assoc. reflexivity.
Qed.

Lemma generateHierarchyString_unfold fuel h hl depth tw :
  generateHierarchyString (S fuel) h hl depth tw
  = forEach (ghs_body (generateHierarchyString fuel h) h depth tw)
            (lst h hl) EmptyString.
Proof. reflexivity. Qed.

Lemma isManager_reports h m :
  isManager h m = match reports h m with [] => false | _ => true end.
Proof. unfold isManager. destruct (reports h m); reflexivity. Qed.

Lemma render_loop h tw d rec prec :
  (forall hl, rec hl ((d + 1) * tw)%Z tw
              = (ps <- prec (lst h hl) ;; Ok (render_lines h tw ps))) ->
  forall level acc,
    forEach (ghs_body rec h (d * tw)%Z tw) level acc
    = (ps <- preorder_level d prec (reports h) level ;;
       Ok (acc ++ render_lines h tw ps)%string).
Proof.
  intros Hrec level. induction level as [|m rest IH]; intro acc.
  - cbn. rewrite string_app_nil_r. reflexivity.
  - cbn [forEach preorder_level]. unfold ghs_body at 1.
    rewrite isManager_reports.
    replace (d * tw + tw)%Z with ((d + 1) * tw)%Z by lia.
    assert (Hline : forall sub tl,
              (acc ++ render_lines h tw ((m, d) :: sub ++ tl))%string
              = (((acc ++ (spaces (d * tw) ++ first_name (emp h m) ++ newline))
                  ++ render_lines h tw sub) ++ render_lines h tw tl)%string).
    { intros sub tl. change ((m, d) :: sub ++ tl) with ([(m, d)] ++ sub ++ tl).
      rewrite !render_lines_app, !string_app_assoc. f_equal.
      unfold render_lines at 1. cbn [map fold_right].
      rewrite string_app_nil_r. unfold line. cbn [fst snd].
      rewrite !string_app_assoc. reflexivity. }
    destruct (reports h m) as [|a c] eqn:Er.
    + cbn [bind]. rewrite IH.
      destruct (preorder_level d prec (reports h) rest) as [tl| |]; cbn [bind];
        try reflexivity.
      rewrite (Hline [] tl). cbn [render_lines map fold_right].
      rewrite string_app_nil_r. reflexivity.
    + unfold reports in Er. rewrite Hrec, Er.
      destruct (prec (a :: c)) as [sub| |]; cbn [bind]; try reflexivity.
      rewrite IH.
      destruct (preorder_level d prec (reports h) rest) as [tl| |]; cbn [bind];
        try reflexivity.
      rewrite (Hline sub tl). reflexivity.
Qed.

(** On every heap the rendering is the concatenation of the lines of the
    pre-order listing; both run out of recursion depth together. *)
Theorem generateHierarchyString_preorder fuel h tw :
  forall hl d,
    generateHierarchyString fuel h hl (d * tw)%Z tw
    = (ps <- preorder fuel h (lst h hl) d ;; Ok (render_lines h tw ps)).
Proof.
  induction fuel as [|fuel IH]; intros hl d; [reflexivity|].
  rewrite generateHierarchyString_unfold. cbn [preorder].
  rewrite (@render_loop h tw d (generateHierarchyString fuel h)
             (fun c => preorder fuel h c (d + 1)%Z)).
  - destruct (preorder_level _ _ _ _); reflexivity.
  - intro hl'. apply IH.
Qed.

(** ** The construction, from the caller's side *)

Lemma Staff_init_inv fuel l h self h' vis :
  l < next h ->
  Staff_init fuel l h = Ok (self, h', vis) ->
  self = mkStaff l (next h) /\
  visit fuel h (roster h l) (roots h l) = Ok vis /\
  Staff_post h l vis h'.
Proof.
  intros Hl Hrun. pose proof (Staff_init_visit fuel h Hl) as Hs.
  destruct (visit fuel h (roster h l) (roots h l)) as [T| |];
    [|contradiction|congruence].
  destruct Hs as (h'' & E & P). rewrite Hrun in E. injection E as -> -> ->.
  auto.
Qed.

(** The manager relation only depends on which employees are in the
    roster, not on their order. *)
Section RosterOrder.
Variable h : heap.
Variables a b : list ref.
Hypothesis Hab : forall x, In x a <-> In x b.

Lemma mgr_ext x y : mgr h a x y -> mgr h b x y.
Proof. intros (Hx & Hy & E). repeat split; [apply Hab, Hx|apply Hab, Hy|exact E]. Qed.

Lemma one_manager_ext : one_manager h a -> one_manager h b.
Proof.
  intros H c x p Hc Hx Hp. apply H; apply Hab; assumption.
Qed.

Lemma valid_managers_ext : valid_managers h a -> valid_managers h b.
Proof.
  intros H x Hx. destruct (H x (proj2 (Hab x) Hx)) as [E|(m & Hm & E)].
  - left; exact E.
  - right. exists m. split; [apply Hab, Hm|exact E].
Qed.
End RosterOrder.

Lemma acyclic_ext h a b :
  (forall x, In x a <-> In x b) -> acyclic h a -> acyclic h b.
Proof.
  intros Hab H x Hx. apply (H x).
  assert (Hincl : forall u v, clos_trans _ (mgr h b) u v ->
                              clos_trans _ (mgr h a) u v).
  { intros u v Huv. induction Huv as [u v Huv|u v w _ IH1 _ IH2].
    - apply t_step. eapply mgr_ext; [intro; symmetry; apply Hab|exact Huv].
    - eapply t_trans; eassumption. }
  apply Hincl, Hx.
Qed.

Lemma desc_ext h a b x y :
  (forall x, In x a <-> In x b) -> desc h a x y -> desc h b x y.
Proof.
  intros Hab Hd. induction Hd as [x y Hxy|x|x y z _ IH1 _ IH2].
  - apply rt_step. eapply mgr_ext; eassumption.
  - apply rt_refl.
  - eapply rt_trans; eassumption.
Qed.

Lemma roster_length h l : List.length (roster h l) = List.length (lst h l).
Proof. apply Permutation_length, sort_by_perm. Qed.

(** With at most one manager per employee the construction succeeds as
    soon as the recursion may be deeper than the roster is long. *)
Theorem Staff_init_ok fuel l h :
  l < next h -> one_manager h (lst h l) -> List.length (lst h l) < fuel ->
  exists h' vis,
    Staff_init fuel l h = Ok (mkStaff l (next h), h', vis) /\
    visit fuel h (roster h l) (roots h l) = Ok vis /\
    Staff_post h l vis h'.
Proof.
  intros Hl H1 Hlen.
  assert (H1' : one_manager h (roster h l)).
  { eapply one_manager_ext; [|exact H1].
    intro x. symmetry. apply roster_In. }
  rewrite <- roster_length in Hlen.
  destruct (@visit_terminates h (roster h l) fuel H1' Hlen) as (T & HT).
  pose proof (Staff_init_visit fuel h Hl) as Hs. unfold roots in Hs.
  rewrite HT in Hs. destruct Hs as (h' & E & P). exists h', T. auto.
Qed.

Lemma visit_incl h all fuel level T :
  visit fuel h all level = Ok T -> incl level all -> incl T all.
Proof.
  intros HT Hincl x Hx.
  destruct (@visit_sound h all _ _ _ HT Hincl x Hx) as (c & Hc & Hd).
  apply (desc_In (Hincl c Hc) Hd).
Qed.

Lemma roots_incl h l : incl (roots h l) (roster h l).
Proof. intros r Hr. apply root_list_In in Hr. tauto. Qed.

(** The pre-order listing of the constructed forest goes through the
    employees in the order the construction did. *)
Lemma preorder_visit h all h' fuel :
  forall level T d,
    visit fuel h all level = Ok T ->
    (forall m, In m T -> reports h' m = children h all m) ->
    exists ps, preorder fuel h' level d = Ok ps /\ map fst ps = T.
Proof.
  induction fuel as [|fuel IH]; intros level T d HT Hrep; [discriminate|].
  rewrite visit_unfold in HT. cbn [preorder].
  revert T HT Hrep. induction level as [|m rest IHl]; intros T HT Hrep.
  - injection HT as <-. exists []. split; reflexivity.
  - apply visit_level_inv in HT. destruct HT as (sub & tl & Hsub & Htl & ->).
    cbn [preorder_level]. rewrite (Hrep m (in_eq _ _)).
    assert (Hs : exists ps, match children h all m with
                            | [] => Ok []
                            | c => preorder fuel h' c (d + 1)%Z
                            end = Ok ps /\ map fst ps = sub).
    { destruct (children h all m) as [|a c] eqn:Ec.
      - injection Hsub as <-. exists []. split; reflexivity.
      - apply (IH _ _ _ Hsub). intros x Hx. apply Hrep. right.
        apply in_or_app. left; exact Hx. }
    destruct Hs as (ps & -> & Hps).
    destruct (IHl tl Htl) as (qs & -> & Hqs).
    { intros x Hx. apply Hrep. right. apply in_or_app. right; exact Hx. }
    cbn [bind]. eexists. split; [reflexivity|].
    cbn [map fst]. rewrite map_app, Hps, Hqs. reflexivity.
Qed.

(** ** Employee *)

Lemma sort_by_name_sorted h l : Sorted (by_name h) (sort_by_name h l).
Proof. apply sort_by_sorted, string_leb_total. Qed.

Lemma sort_by_name_perm h l : Permutation (sort_by_name h l) l.
Proof. apply sort_by_perm. Qed.

Lemma sort_by_name_idem h l :
  sort_by_name h (sort_by_name h l) = sort_by_name h l.
Proof. apply sort_by_idem, string_leb_total. Qed.

(** Employees of a given name keep their relative order. *)
Lemma sort_by_name_stable h l name :
  filter (fun x => String.eqb (first_name (emp h x)) name) (sort_by_name h l)
  = filter (fun x => String.eqb (first_name (emp h x)) name) l.
Proof.
  apply (sort_by_filter (fun x => first_name (emp h x)) String.leb
           (fun k => String.eqb k name)).
  intros a b Ha Hb. apply String.eqb_eq in Ha, Hb. subst.
  apply (leb_refl _ string_leb_total).
Qed.

Lemma setEmployees_reports self l h :
  employees (emp (setEmployees self l h) self) = l /\
  lst (setEmployees self l h) l = sort_by_name h (lst h l).
Proof.
  unfold setEmployees, set_emp, list_sort, set_lst. cbn [emp lst].
  rewrite !upd_same. split; reflexivity.
Qed.

(** C8: [reportsToId(id)] is true exactly when the employee's manager id
    equals [id]; for an employee whose manager is absent it is false
    for every id. *)
Theorem C8_reportsToId_iff_manager (e : Employee) (i : Z) :
  (reportsToId e i = true <-> manager e = Some i) /\
  (manager e = None -> reportsToId e i = false).
Proof.
  split; [apply reportsToId_true|].
  intro H. unfold reportsToId. rewrite H. reflexivity.
Qed.

(** C5: [setEmployees] stores the given employees sorted ascending by
    first name; the sort is stable (the employees of any one name keep
    their input order); and applying [setEmployees] again to the stored
    sequence (the same list or a copy of it) leaves the reports as they
    are. *)
Theorem C5_setEmployees_sorted_stable_idempotent (h : heap) (self : ref) (l : lref) :
  let h1 := setEmployees self l h in
  Sorted (by_name h) (reports h1 self) /\
  Permutation (reports h1 self) (lst h l) /\
  (forall name,
     filter (fun x => String.eqb (first_name (emp h x)) name) (reports h1 self)
     = filter (fun x => String.eqb (first_name (emp h x)) name) (lst h l)) /\
  (forall l2, lst h1 l2 = reports h1 self ->
              reports (setEmployees self l2 h1) self = reports h1 self).
Proof.
  intro h1. destruct (setEmployees_reports self l h) as (He & Hl).
  assert (Hr : reports h1 self = sort_by_name h (lst h l)).
  { unfold reports, h1. rewrite He. exact Hl. }
  rewrite Hr. split; [apply sort_by_name_sorted|].
  split; [apply sort_by_name_perm|].
  split; [intro name; apply sort_by_name_stable|].
  intros l2 Hl2. destruct (setEmployees_reports self l2 h1) as (He2 & Hl2').
  unfold reports at 1. rewrite He2, Hl2', Hl2.
  rewrite (@sort_by_name_same h h1) by apply setEmployees_same_fields.
  apply sort_by_name_idem.
Qed.

(** C10: [Staff(l)] and [setEmployees(l)] sort the caller's list object
    in place and keep a reference to that same object: afterwards the
    caller's list holds its former elements ordered by first name, and
    it is the list the container (resp. the employee) refers to. *)
Theorem C10_caller_list_sorted_in_place_and_aliased :
  (forall fuel l h self h' vis,
     l < next h -> Staff_init fuel l h = Ok (self, h', vis) ->
     s_employees self = l /\
     lst h' l = sort_by_name h (lst h l) /\
     Sorted (by_name h) (lst h' l) /\ Permutation (lst h' l) (lst h l)) /\
  (forall self l h,
     employees (emp (setEmployees self l h) self) = l /\
     lst (setEmployees self l h) l = sort_by_name h (lst h l) /\
     Sorted (by_name h) (lst (setEmployees self l h) l) /\
     Permutation (lst (setEmployees self l h) l) (lst h l)).
Proof.
  split.
  - intros fuel l h self h' vis Hl Hrun.
    destruct (Staff_init_inv _ _ Hl Hrun) as (-> & _ & (Hros & _)).
    rewrite Hros. unfold roster. split; [reflexivity|]. split; [reflexivity|].
    split; [apply sort_by_name_sorted|apply sort_by_name_perm].
  - intros self l h. destruct (setEmployees_reports self l h) as (He & Hl).
    rewrite Hl. split; [exact He|]. split; [reflexivity|].
    split; [apply sort_by_name_sorted|apply sort_by_name_perm].
Qed.

(** The construction of the test of app.test.py reorders the caller's
    list [[0; 1; 2]] into [[2; 0; 1]] ("a" first). *)
Lemma C10_witness :
  lst (snd (build_input scenario_hierarchy)) (fst (build_input scenario_hierarchy))
  = [0; 1; 2] /\
  exists self h' vis,
    Staff_init 3 (fst (build_input scenario_hierarchy))
               (snd (build_input scenario_hierarchy)) = Ok (self, h', vis) /\
    s_employees self = fst (build_input scenario_hierarchy) /\
    lst h' (fst (build_input scenario_hierarchy)) = [2; 0; 1].
Proof.
  split; [reflexivity|].
  destruct (Staff_init 3 (fst (build_input scenario_hierarchy))
              (snd (build_input scenario_hierarchy)))
    as [[[self h'] vis]| |] eqn:E; [|vm_compute in E; discriminate ..].
  exists self, h', vis. split; [reflexivity|].
  destruct (proj1 C10_caller_list_sorted_in_place_and_aliased
              3 (fst (build_input scenario_hierarchy))
              (snd (build_input scenario_hierarchy)) self h' vis)
    as (Hs & Hl & _); [vm_compute; lia|exact E|].
  split; [exact Hs|]. rewrite Hl. reflexivity.
Defined.

(** ** Total salary *)

Lemma fold_left_add l a :
  fold_left Z.add l a = (a + fold_right Z.add 0 l)%Z.
Proof.
  revert a. induction l as [|x l IH]; intro a; simpl; [lia|].
  rewrite IH. lia.
Qed.

Lemma salary_sum_map h l :
  salary_sum h l = fold_right Z.add 0%Z (map (fun x => salary (emp h x)) l).
Proof. induction l as [|x l IH]; simpl; [reflexivity|rewrite <- IH; reflexivity]. Qed.

Lemma reduce_salaries h l :
  reduce Z.add (map (fun x => salary (emp h x)) l)
  = match l with
    | [] => TypeError
    | _ :: _ => Ok (salary_sum h l)
    end.
Proof.
  destruct l as [|x l]; [reflexivity|].
  cbn [map reduce]. rewrite fold_left_add, <- salary_sum_map. reflexivity.
Qed.

Lemma salary_sum_perm h a b : Permutation a b -> salary_sum h a = salary_sum h b.
Proof.
  induction 1 as [|x a b _ IH|x y a|a b c _ IH1 _ IH2]; simpl; lia.
Qed.

Lemma salary_sum_ext h h' l :
  (forall r, salary (emp h' r) = salary (emp h r)) ->
  salary_sum h' l = salary_sum h l.
Proof.
  intro H. induction l as [|x l IH]; simpl; [reflexivity|].
  rewrite H, IH. reflexivity.
Qed.

(** What [totalSalary] returns after a construction. *)
Lemma totalSalary_after fuel l h self h' vis :
  l < next h -> Staff_init fuel l h = Ok (self, h', vis) ->
  totalSalary self h' = match lst h l with
                        | [] => TypeError
                        | _ :: _ => Ok (salary_sum h (lst h l))
                        end.
Proof.
  intros Hl Hrun.
  destruct (Staff_init_inv _ _ Hl Hrun) as (-> & _ & (Hros & _ & Hf & _)).
  unfold totalSalary. cbn [s_employees]. rewrite Hros, reduce_salaries.
  assert (Hsum : salary_sum h' (roster h l) = salary_sum h (lst h l)).
  { rewrite (@salary_sum_ext h h') by (intro r; apply (Hf r)).
    apply salary_sum_perm, sort_by_name_perm. }
  destruct (lst h l) as [|x xs] eqn:El.
  - unfold roster. rewrite El. reflexivity.
  - destruct (roster h l) as [|y ys] eqn:Er; [|rewrite Hsum; reflexivity].
    apply sort_by_nil in Er. congruence.
Qed.

Lemma Staff_init_empty fuel l h :
  l < next h -> lst h l = [] ->
  exists h', Staff_init (S fuel) l h = Ok (mkStaff l (next h), h', []) /\
             lst h' (next h) = [] /\ lst h' l = [].
Proof.
  intros Hl He. pose proof (Staff_init_visit (S fuel) h Hl) as Hs.
  unfold roots, roster in Hs. rewrite He in Hs. cbn in Hs.
  destruct Hs as (h' & E & (Hros & Hroots & _)).
  unfold roots, roster in Hros, Hroots. rewrite He in Hros, Hroots.
  exists h'. auto.
Qed.

(** C1 (the program departs from it): for an input of zero employees the
    construction succeeds, with no root, but [totalSalary()] raises
    [TypeError] ([reduce] of an empty sequence without an initial value)
    instead of returning 0. *)
Theorem C1_empty_input_totalSalary_raises fuel l h :
  l < next h -> lst h l = [] ->
  exists self h',
    Staff_init (S fuel) l h = Ok (self, h', []) /\
    lst h' (s_hierarchy self) = [] /\
    totalSalary self h' = TypeError.
Proof.
  intros Hl He. destruct (Staff_init_empty fuel h Hl He) as (h' & E & Hr & _).
  exists (mkStaff l (next h)), h'. split; [exact E|]. split; [exact Hr|].
  rewrite (totalSalary_after _ _ Hl E), He. reflexivity.
Qed.

Lemma C1_witness :
  exists self h',
    Staff_init 1 (fst (build_input [])) (snd (build_input [])) = Ok (self, h', []) /\
    lst h' (s_hierarchy self) = [] /\
    totalSalary self h' = TypeError.
Proof.
  apply (@C1_empty_input_totalSalary_raises 0 (fst (build_input []))
           (snd (build_input []))).
  - vm_compute. lia.
  - reflexivity.
Defined.

(** C4: for a non-empty input, [totalSalary()] is the arithmetic sum of
    the salaries of all the employees given, whatever their managers;
    and a construction from any permutation of the input, over employees
    with the same salaries (whatever their managers, ids and names),
    gives the same total. *)
Theorem C4_totalSalary_is_sum fuel l h self h' vis :
  l < next h -> lst h l <> [] ->
  Staff_init fuel l h = Ok (self, h', vis) ->
  totalSalary self h' = Ok (salary_sum h (lst h l)) /\
  forall fuel2 l2 h2 self2 h2' vis2,
    l2 < next h2 ->
    (forall r, salary (emp h2 r) = salary (emp h r)) ->
    Permutation (lst h2 l2) (lst h l) ->
    Staff_init fuel2 l2 h2 = Ok (self2, h2', vis2) ->
    totalSalary self2 h2' = totalSalary self h'.
Proof.
  intros Hl Hne Hrun.
  assert (Ht : totalSalary self h' = Ok (salary_sum h (lst h l))).
  { rewrite (totalSalary_after _ _ Hl Hrun).
    destruct (lst h l); [contradiction|reflexivity]. }
  split; [exact Ht|].
  intros fuel2 l2 h2 self2 h2' vis2 Hl2 Hsal Hperm Hrun2.
  rewrite Ht, (totalSalary_after _ _ Hl2 Hrun2).
  destruct (lst h2 l2) as [|x xs] eqn:E2.
  - apply Permutation_nil in Hperm. congruence.
  - rewrite <- E2. f_equal. rewrite (@salary_sum_ext h h2 _ Hsal).
    apply salary_sum_perm. rewrite E2. exact Hperm.
Qed.

(** The salary test of app.test.py: 130000 + 130000. *)
Lemma C4_witness :
  exists self h' vis,
    Staff_init 3 (fst (build_input scenario_salary))
               (snd (build_input scenario_salary)) = Ok (self, h', vis) /\
    totalSalary self h' = Ok 260000%Z.
Proof.
  destruct (Staff_init 3 (fst (build_input scenario_salary))
              (snd (build_input scenario_salary)))
    as [[[self h'] vis]| |] eqn:E; [|vm_compute in E; discriminate ..].
  exists self, h', vis. split; [reflexivity|].
  destruct (@C4_totalSalary_is_sum 3 (fst (build_input scenario_salary))
              (snd (build_input scenario_salary)) self h' vis) as (Ht & _).
  - vm_compute. lia.
  - vm_compute. discriminate.
  - exact E.
  - rewrite Ht. reflexivity.
Defined.

(** ** Roots *)

Lemma Staff_init_fuel fuel l h r : Staff_init fuel l h = Ok r -> fuel <> 0.
Proof.
  intros Hrun ->. unfold Staff_init, list_comp, new_list in Hrun.
  cbn in Hrun. discriminate.
Qed.

(** C7 (the program departs from it on the empty input): the roots are
    exactly the employees without a manager, in the name-sorted order of
    the roster; when there is no root, the rendering is the empty string
    and [totalSalary()] is the sum over all the employees, except that
    on an input of zero employees it raises [TypeError]. *)
Theorem C7_roots_are_owners fuel l h self h' vis :
  l < next h -> Staff_init fuel l h = Ok (self, h', vis) ->
  lst h' (s_employees self) = sort_by_name h (lst h l) /\
  lst h' (s_hierarchy self)
  = filter (fun x => isOwner (emp h' x)) (lst h' (s_employees self)) /\
  (lst h' (s_hierarchy self) = [] ->
   repr fuel self h' = Ok EmptyString /\
   totalSalary self h' = match lst h l with
                         | [] => TypeError
                         | _ :: _ => Ok (salary_sum h (lst h l))
                         end).
Proof.
  intros Hl Hrun. pose proof (totalSalary_after _ _ Hl Hrun) as Ht.
  pose proof (@Staff_init_fuel fuel l h _ Hrun) as Hfuel.
  destruct (Staff_init_inv _ _ Hl Hrun) as (-> & _ & (Hros & Hroots & Hf & _)).
  cbn [s_employees s_hierarchy]. split; [exact Hros|]. split.
  - rewrite Hroots, Hros. unfold roots, root_list. apply filter_ext.
    intro x. symmetry. apply isOwner_same, Hf.
  - intro Hnil. split; [|exact Ht].
    destruct fuel as [|fuel]; [contradiction|].
    unfold repr. rewrite generateHierarchyString_unfold.
    cbn [s_hierarchy]. rewrite Hnil. reflexivity.
Qed.

(** On the empty input: no root, an empty rendering, and [TypeError]
    for the total. *)
Lemma C7_witness :
  exists self h' vis,
    Staff_init 1 (fst (build_input [])) (snd (build_input [])) = Ok (self, h', vis) /\
    lst h' (s_hierarchy self) = [] /\
    repr 1 self h' = Ok EmptyString /\
    totalSalary self h' = TypeError.
Proof.
  destruct (Staff_init 1 (fst (build_input [])) (snd (build_input [])))
    as [[[self h'] vis]| |] eqn:E; [|vm_compute in E; discriminate ..].
  exists self, h', vis. split; [reflexivity|].
  destruct (@C7_roots_are_owners 1 (fst (build_input [])) (snd (build_input []))
              self h' vis) as (Hros & Hroots & Hzero).
  - vm_compute. lia.
  - exact E.
  - assert (Hnil : lst h' (s_hierarchy self) = []).
    { rewrite Hroots, Hros. reflexivity. }
    split; [exact Hnil|]. exact (Hzero Hnil).
Defined.

(** ** Orphans and reports *)

Lemma Staff_reports fuel l h self h' vis m :
  wf h l -> fresh h l -> Staff_init fuel l h = Ok (self, h', vis) ->
  In m (lst h l) ->
  reports h' m = if in_dec Nat.eq_dec m vis
                 then children h (roster h l) m else [].
Proof.
  intros Hwf Hfr Hrun Hm.
  destruct (Staff_init_inv _ _ (proj1 Hwf) Hrun) as (_ & _ & P).
  eapply Staff_post_reports; eassumption.
Qed.

(** An employee found in a reports list reports to the owner of the list. *)
Lemma Staff_reports_In fuel l h self h' vis m x :
  wf h l -> fresh h l -> Staff_init fuel l h = Ok (self, h', vis) ->
  In m (lst h l) -> In x (reports h' m) ->
  In x (lst h l) /\ manager (emp h x) = Some (id (emp h m)).
Proof.
  intros Hwf Hfr Hrun Hm Hx.
  rewrite (@Staff_reports fuel l h self h' vis m Hwf Hfr Hrun Hm) in Hx.
  destruct (in_dec Nat.eq_dec m vis); [|destruct Hx].
  apply children_In in Hx. rewrite roster_In in Hx. exact Hx.
Qed.

(** C6: an employee whose manager id is the id of no employee of the
    input does not make the construction fail; it is in the roster and
    its salary is part of the total, but it is neither a root nor in any
    reports list.  (Employees as [Employee.__init__] builds them; at
    most one manager per employee, which unique ids give, so that the
    recursion ends.) *)
Theorem C6_dangling_manager_is_orphaned fuel l h x k :
  wf h l -> fresh h l -> one_manager h (lst h l) ->
  In x (lst h l) -> manager (emp h x) = Some k ->
  (forall m, In m (lst h l) -> id (emp h m) <> k) ->
  List.length (lst h l) < fuel ->
  exists self h' vis,
    Staff_init fuel l h = Ok (self, h', vis) /\
    In x (lst h' (s_employees self)) /\
    (exists rest,
       Permutation (lst h' (s_employees self)) (x :: rest) /\
       totalSalary self h' = Ok (salary (emp h x) + salary_sum h rest)%Z) /\
    ~ In x (lst h' (s_hierarchy self)) /\
    forall m, In m (lst h' (s_employees self)) -> ~ In x (reports h' m).
Proof.
  intros Hwf Hfr H1 Hx Hk Hdangling Hlen.
  destruct (@Staff_init_ok fuel l h (proj1 Hwf) H1 Hlen) as (h' & vis & Hrun & _ & P).
  exists (mkStaff l (next h)), h', vis. split; [exact Hrun|].
  destruct P as (Hros & Hroots & _). cbn [s_employees s_hierarchy].
  rewrite Hros, Hroots. split; [apply roster_In, Hx|]. split; [|split].
  - destruct (in_split _ _ Hx) as (l1 & l2 & El).
    exists (l1 ++ l2).
    assert (Hp : Permutation (lst h l) (x :: l1 ++ l2)).
    { rewrite El. apply Permutation_sym, Permutation_middle. }
    split.
    + eapply perm_trans; [apply sort_by_name_perm|exact Hp].
    + rewrite (@totalSalary_after fuel l h _ h' vis (proj1 Hwf) Hrun).
      destruct (lst h l) as [|y ys] eqn:E; [destruct Hx|].
      rewrite (salary_sum_perm h Hp). reflexivity.
  - intro Hr. apply root_list_In in Hr. destruct Hr as (_ & Hr). congruence.
  - intros m Hm Hin. apply roster_In in Hm.
    destruct (@Staff_reports_In fuel l h _ h' vis m x Hwf Hfr Hrun Hm Hin)
      as (_ & Hmgr).
    apply (Hdangling m Hm). congruence.
Qed.

(** The employee "cy" of [scenario_orphan] (address 2) refers to the
    manager id 7. *)
Lemma C6_witness :
  exists self h' vis,
    Staff_init 4 (input_list scenario_orphan) (input_heap scenario_orphan)
    = Ok (self, h', vis) /\
    In 2 (lst h' (s_employees self)) /\
    (exists rest,
       Permutation (lst h' (s_employees self)) (2 :: rest) /\
       totalSalary self h'
       = Ok (salary (emp (input_heap scenario_orphan) 2%nat)
             + salary_sum (input_heap scenario_orphan) rest)%Z) /\
    ~ In 2 (lst h' (s_hierarchy self)) /\
    forall m, In m (lst h' (s_employees self)) -> ~ In 2 (reports h' m).
Proof.
  apply (@C6_dangling_manager_is_orphaned 4 (input_list scenario_orphan)
           (input_heap scenario_orphan) 2 7%Z).
  - concrete_wf.
  - concrete_fresh.
  - concrete_one_manager.
  - vm_compute. auto.
  - reflexivity.
  - intros m Hm. enum_In Hm; vm_compute; discriminate.
  - vm_compute. lia.
Defined.

(** The claim C2 as stated fails: in [scenario_unreachable_manager] the
    manager id of "y" (address 1) is the id of "x" (address 0), which is
    in the roster, and "y" is in no reports list. *)
Lemma C2_counterexample :
  exists self h' vis,
    Staff_init 3 (input_list scenario_unreachable_manager)
               (input_heap scenario_unreachable_manager) = Ok (self, h', vis) /\
    lst h' (s_employees self) = [0; 1] /\
    manager (emp h' 1) = Some (id (emp h' 0)) /\
    reports h' 0 = [] /\ reports h' 1 = [].
Proof.
  destruct (Staff_init 3 (input_list scenario_unreachable_manager)
              (input_heap scenario_unreachable_manager))
    as [[[self h'] vis]| |] eqn:E; [|vm_compute in E; discriminate ..].
  exists self, h', vis. split; [reflexivity|].
  vm_compute in E. injection E as <- <- <-. vm_compute. auto.
Qed.

(** C2, amended: an employee whose manager id is the id of an employee
    of the roster that the hierarchy reaches (its own chain of managers
    leads to an employee without a manager) is in the reports list of
    that manager, and in the reports list of no other employee. *)
Theorem C2_reachable_manager_lists_report fuel l h x m r :
  wf h l -> fresh h l -> one_manager h (lst h l) ->
  In x (lst h l) -> In m (lst h l) ->
  manager (emp h x) = Some (id (emp h m)) ->
  In r (lst h l) -> manager (emp h r) = None -> desc h (lst h l) m r ->
  List.length (lst h l) < fuel ->
  exists self h' vis,
    Staff_init fuel l h = Ok (self, h', vis) /\
    In x (reports h' m) /\
    forall m', In m' (lst h' (s_employees self)) ->
               In x (reports h' m') -> m' = m.
Proof.
  intros Hwf Hfr H1 Hx Hm Hmgr Hr Hroot Hd Hlen.
  destruct (@Staff_init_ok fuel l h (proj1 Hwf) H1 Hlen)
    as (h' & vis & Hrun & Hvis & P).
  exists (mkStaff l (next h)), h', vis. split; [exact Hrun|].
  assert (Hmvis : In m vis).
  { eapply visit_complete; [|exact Hvis|].
    - eapply desc_ext; [|exact Hd]. intro y. symmetry. apply roster_In.
    - apply root_list_In. split; [apply roster_In, Hr|exact Hroot]. }
  split.
  - rewrite (@Staff_reports fuel l h _ h' vis m Hwf Hfr Hrun Hm).
    destruct (in_dec Nat.eq_dec m vis); [|contradiction].
    apply children_In. split; [apply roster_In, Hx|exact Hmgr].
  - intros m' Hm' Hin. destruct P as (Hros & _). cbn [s_employees] in Hm'.
    rewrite Hros in Hm'. apply roster_In in Hm'.
    destruct (@Staff_reports_In fuel l h _ h' vis m' x Hwf Hfr Hrun Hm' Hin)
      as (_ & Hmgr').
    apply (H1 x m' m); assumption.
Qed.

(** In [scenario_hierarchy], "a" (address 2) reports to "jacob"
    (address 0), who has no manager. *)
Lemma C2_witness :
  exists self h' vis,
    Staff_init 4 (input_list scenario_hierarchy) (input_heap scenario_hierarchy)
    = Ok (self, h', vis) /\
    In 2 (reports h' 0) /\
    forall m', In m' (lst h' (s_employees self)) ->
               In 2 (reports h' m') -> m' = 0.
Proof.
  apply (@C2_reachable_manager_lists_report 4 (input_list scenario_hierarchy)
           (input_heap scenario_hierarchy) 2 0 0).
  - concrete_wf.
  - concrete_fresh.
  - concrete_one_manager.
  - vm_compute. auto.
  - vm_compute. auto.
  - reflexivity.
  - vm_compute. auto.
  - reflexivity.
  - apply rt_refl.
  - vm_compute. lia.
Defined.

(** ** Valid forests *)

(** A rank that decreases towards the managers excludes cycles. *)
Lemma acyclic_by_rank h all (rank : ref -> nat) :
  (forall x y, mgr h all x y -> rank y < rank x) -> acyclic h all.
Proof.
  intros Hrank x Hx.
  assert (H : forall u v, clos_trans _ (mgr h all) u v -> rank v < rank u).
  { intros u v Huv. induction Huv as [u v Huv|u v w _ IH1 _ IH2].
    - apply Hrank, Huv.
    - lia. }
  specialize (H x x Hx). lia.
Qed.

(** C9: when the manager graph of the input is a valid forest (no
    employee twice in the input, at most one manager per employee, every
    manager id absent or the id of an employee of the input, no cycle),
    the construction terminates, as soon as the recursion may be deeper
    than the input is long, and the employees bound to the loop variable
    across all the levels are the employees of the input, each exactly
    once. *)
Theorem C9_valid_forest_visited_once fuel l h :
  l < next h -> NoDup (lst h l) -> one_manager h (lst h l) ->
  valid_managers h (lst h l) -> acyclic h (lst h l) ->
  List.length (lst h l) < fuel ->
  exists self h' vis,
    Staff_init fuel l h = Ok (self, h', vis) /\ Permutation vis (lst h l).
Proof.
  intros Hl Hnd H1 Hv Hac Hlen.
  destruct (@Staff_init_ok fuel l h Hl H1 Hlen) as (h' & vis & Hrun & Hvis & _).
  exists (mkStaff l (next h)), h', vis. split; [exact Hrun|].
  assert (Hin : forall x, In x (lst h l) <-> In x (roster h l)).
  { intro x. symmetry. apply roster_In. }
  eapply perm_trans; [|apply sort_by_name_perm].
  apply (@visit_once h (roster h l)) with (fuel := fuel).
  - eapply one_manager_ext; eassumption.
  - eapply acyclic_ext; eassumption.
  - eapply valid_managers_ext; eassumption.
  - apply sort_by_NoDup, Hnd.
  - exact Hvis.
Qed.

(** [scenario_hierarchy] is a valid forest: "jacob" (address 0) above
    "jacob" (1) and "a" (2); the recursion goes through 0, 2, 1. *)
Lemma C9_witness :
  exists self h' vis,
    Staff_init 4 (input_list scenario_hierarchy) (input_heap scenario_hierarchy)
    = Ok (self, h', vis) /\
    Permutation vis
      (lst (input_heap scenario_hierarchy) (input_list scenario_hierarchy)).
Proof.
  apply (@C9_valid_forest_visited_once 4 (input_list scenario_hierarchy)
           (input_heap scenario_hierarchy)).
  - vm_compute. lia.
  - vm_compute. repeat constructor; simpl; intuition discriminate.
  - concrete_one_manager.
  - intros x Hx. enum_In Hx.
    + left. reflexivity.
    + right. exists 0. split; [vm_compute; auto|reflexivity].
    + right. exists 0. split; [vm_compute; auto|reflexivity].
  - apply (@acyclic_by_rank _ _ (fun x => match x with 0 => 0 | _ => 1 end)).
    intros x y (Hx & Hy & E).
    enum_In Hx; enum_In Hy; vm_compute in E; try discriminate E; lia.
  - vm_compute. lia.
Defined.

(** ** The rendering of a constructed forest *)

(** C3: the rendering of a constructed forest is the concatenation, over
    the depth-first pre-order listing of the forest from the roots in
    their order, of one line per employee: [2 * depth] spaces (depth 0
    for the roots), the first name, one newline; the listing goes
    through the employees in the order the construction did.  For the
    input of the test of app.test.py it is "jacob", "  a", "  jacob",
    one per line. *)
Theorem C3_render_is_indented_preorder :
  (forall fuel l h self h' vis,
     wf h l -> fresh h l -> Staff_init fuel l h = Ok (self, h', vis) ->
     exists ps,
       preorder fuel h' (lst h' (s_hierarchy self)) 0 = Ok ps /\
       map fst ps = vis /\
       repr fuel self h' = Ok (render_lines h' 2 ps)) /\
  (exists self h' vis,
     Staff_init 3 (input_list scenario_hierarchy) (input_heap scenario_hierarchy)
     = Ok (self, h', vis) /\
     repr 3 self h'
     = Ok ("jacob" ++ newline ++ "  a" ++ newline ++ "  jacob" ++ newline)%string).
Proof.
  split.
  - intros fuel l h self h' vis Hwf Hfr Hrun.
    destruct (Staff_init_inv _ _ (proj1 Hwf) Hrun) as (Hself & Hvis & P).
    assert (Hrep : forall m, In m vis -> reports h' m = children h (roster h l) m).
    { intros m Hm.
      assert (Hml : In m (lst h l)).
      { apply roster_In. eapply visit_incl; [exact Hvis|apply roots_incl|exact Hm]. }
      rewrite (@Staff_reports fuel l h self h' vis m Hwf Hfr Hrun Hml).
      destruct (in_dec Nat.eq_dec m vis); [reflexivity|contradiction]. }
    destruct P as (_ & Hroots & _). subst self. cbn [s_hierarchy].
    rewrite Hroots.
    destruct (@preorder_visit h (roster h l) h' fuel _ _ 0%Z Hvis Hrep)
      as (ps & Hps & Hfst).
    exists ps. split; [exact Hps|]. split; [exact Hfst|].
    unfold repr. cbn [s_hierarchy].
    change 0%Z with (0 * 2)%Z at 1.
    rewrite generateHierarchyString_preorder, Hroots, Hps. reflexivity.
  - destruct (Staff_init 3 (input_list scenario_hierarchy)
                (input_heap scenario_hierarchy))
      as [[[self h'] vis]| |] eqn:E; [|vm_compute in E; discriminate ..].
    exists self, h', vis. split; [reflexivity|].
    vm_compute in E. injection E as <- <- <-. vm_compute. reflexivity.
Qed.

(** On [scenario_hierarchy] the listing is "jacob" (address 0) at depth
    0, then "a" (2) and "jacob" (1) at depth 1. *)
Lemma C3_witness :
  exists self h' vis ps,
    Staff_init 3 (input_list scenario_hierarchy) (input_heap scenario_hierarchy)
    = Ok (self, h', vis) /\
    preorder 3 h' (lst h' (s_hierarchy self)) 0 = Ok ps /\
    map fst ps = vis /\
    ps = [(0, 0%Z); (2, 1%Z); (1, 1%Z)] /\
    repr 3 self h' = Ok (render_lines h' 2 ps).
Proof.
  destruct (Staff_init 3 (input_list scenario_hierarchy)
              (input_heap scenario_hierarchy))
    as [[[self h'] vis]| |] eqn:E; [|vm_compute in E; discriminate ..].
  destruct (proj1 C3_render_is_indented_preorder 3
              (input_list scenario_hierarchy) (input_heap scenario_hierarchy)
              self h' vis) as (ps & Hps & Hfst & Hrepr).
  - concrete_wf.
  - concrete_fresh.
  - exact E.
  - exists self, h', vis, ps. split; [reflexivity|]. split; [exact Hps|].
    split; [exact Hfst|]. split; [|exact Hrepr].
    vm_compute in E. injection E as <- <- <-.
    vm_compute in Hps. injection Hps as <-. reflexivity.
Defined.


(** ** The inputs built by [Employee(x) for x in data] *)

Lemma Employee_init_spec d h :
  heap_ok h ->
  fst (Employee_init d h) = nextE h /\
  nextE (snd (Employee_init d h)) = S (nextE h) /\
  heap_ok (snd (Employee_init d h)) /\
  (forall r, r < nextE h -> emp (snd (Employee_init d h)) r = emp h r) /\
  raw_of (emp (snd (Employee_init d h)) (nextE h)) = d.
Proof.
  intro Hok. unfold Employee_init, new_list. cbn [fst snd nextE emp].
  split; [reflexivity|]. split; [reflexivity|]. split; [|split].
  - intros r Hr. cbn [nextE emp lst next] in *. unfold upd at 1 3.
    destruct (Nat.eqb r (nextE h)) eqn:E.
    + cbn [employees]. rewrite upd_same. split; [lia|reflexivity].
    + apply Nat.eqb_neq in E. destruct (Hok r) as (Hlt & Hnil); [lia|].
      rewrite upd_other by lia. split; [lia|exact Hnil].
  - intros r Hr. apply upd_other. lia.
  - rewrite upd_same. destruct d; reflexivity.
Qed.

Lemma build_employees_spec data :
  forall h, heap_ok h ->
    fst (build_employees data h) = seq (nextE h) (List.length data) /\
    nextE (snd (build_employees data h)) = nextE h + List.length data /\
    heap_ok (snd (build_employees data h)) /\
    (forall r, r < nextE h -> emp (snd (build_employees data h)) r = emp h r) /\
    map (fun r => raw_of (emp (snd (build_employees data h)) r))
        (fst (build_employees data h)) = data.
Proof.
  induction data as [|d rest IH]; intros h Hok.
  - cbn [build_employees fst snd List.length seq map].
    split; [reflexivity|]. split; [lia|]. split; [exact Hok|].
    split; [reflexivity|reflexivity].
  - destruct (Employee_init_spec d Hok) as (Hr & Hn & Hok1 & Hemp & Hraw).
    cbn [build_employees].
    destruct (Employee_init d h) as [r h1]. cbn [fst snd] in *.
    destruct (IH h1 Hok1) as (Hrs & Hn2 & Hok2 & Hemp2 & Hraw2).
    destruct (build_employees rest h1) as [rs h2]. cbn [fst snd] in *.
    subst r. rewrite Hn in *. split; [cbn; f_equal; exact Hrs|].
    split; [cbn; lia|]. split; [exact Hok2|]. split.
    + intros r Hr. rewrite Hemp2 by lia. apply Hemp, Hr.
    + cbn [map]. rewrite Hraw2, Hemp2 by lia. rewrite Hraw. reflexivity.
Qed.

(** The list of employees the program builds from validated records is
    a well-formed input of distinct, fresh employees carrying the
    records' attributes, in order. *)
Theorem build_input_spec data :
  wf (input_heap data) (input_list data) /\
  fresh (input_heap data) (input_list data) /\
  NoDup (lst (input_heap data) (input_list data)) /\
  map (fun r => raw_of (emp (input_heap data) r))
      (lst (input_heap data) (input_list data)) = data.
Proof.
  unfold input_heap, input_list, build_input.
  assert (Hok0 : heap_ok empty_heap) by (intros r Hr; cbn in Hr; lia).
  destruct (build_employees_spec data Hok0) as (Hrs & Hn & Hok & _ & Hraw).
  destruct (build_employees data empty_heap) as [rs h]. cbn [fst snd] in *.
  unfold new_list. cbn [fst snd lst emp next]. rewrite upd_same.
  assert (Hlt : forall r, In r rs -> r < nextE h).
  { intros r Hr. rewrite Hrs in Hr. apply in_seq in Hr. cbn in Hr. lia. }
  split; [|split; [|split]].
  - split; [cbn; lia|]. cbn [lst emp next]. rewrite upd_same.
    intros r Hr. destruct (Hok r (Hlt r Hr)). lia.
  - intros r Hr. cbn [lst] in Hr. rewrite upd_same in Hr.
    unfold reports. cbn [lst emp]. destruct (Hok r (Hlt r Hr)) as (Hl & Hnil).
    rewrite upd_other by lia. exact Hnil.
  - rewrite Hrs. apply seq_NoDup.
  - exact Hraw.
Qed.

Lemma NoDup_map_injective {A B : Type} (f : A -> B) (l : list A) :
  NoDup (map f l) -> forall a b, In a l -> In b l -> f a = f b -> a = b.
Proof.
  induction l as [|x l IH]; intros Hnd a b Ha Hb E; [destruct Ha|].
  cbn [map] in Hnd. apply NoDup_cons_iff in Hnd. destruct Hnd as (Hx & Hnd).
  destruct Ha as [<-|Ha], Hb as [<-|Hb].
  - reflexivity.
  - exfalso. apply Hx. rewrite E. apply in_map, Hb.
  - exfalso. apply Hx. rewrite <- E. apply in_map, Ha.
  - apply IH; assumption.
Qed.

Lemma build_input_ids data :
  map (fun r => id (emp (input_heap data) r))
      (lst (input_heap data) (input_list data))
  = map raw_id data.
Proof.
  destruct (build_input_spec data) as (_ & _ & _ & Hraw).
  apply (f_equal (map raw_id)) in Hraw. rewrite map_map in Hraw. exact Hraw.
Qed.

(** Records with pairwise distinct ids give employees with pairwise
    distinct ids, hence at most one manager each. *)
Lemma build_input_unique_ids data :
  NoDup (map raw_id data) ->
  unique_ids (input_heap data) (lst (input_heap data) (input_list data)).
Proof.
  intros Hnd a b Ha Hb E. rewrite <- build_input_ids in Hnd.
  apply (NoDup_map_injective _ _ Hnd a b Ha Hb E).
Qed.

(** For validated records with pairwise distinct ids the construction
    always returns, within a recursion depth of the number of records
    plus one. *)
Theorem Staff_of_records_ok data :
  NoDup (map raw_id data) ->
  exists self h' vis,
    Staff_init (S (List.length data)) (input_list data) (input_heap data)
    = Ok (self, h', vis).
Proof.
  intro Hnd. destruct (build_input_spec data) as (Hwf & _ & _ & Hraw).
  destruct (@Staff_init_ok (S (List.length data)) (input_list data)
              (input_heap data)) as (h' & vis & Hrun & _).
  - apply Hwf.
  - apply unique_ids_one_manager, build_input_unique_ids, Hnd.
  - apply (f_equal (@List.length _)) in Hraw. rewrite length_map in Hraw. lia.
  - eauto.
Qed.

(** * Further properties of the program *)

(** ** Termination and non-termination of the construction *)

Lemma visit_level_not_TypeError rec level :
  (forall m, rec m <> TypeError) -> visit_level rec level <> TypeError.
Proof.
  intro Hrec. induction level as [|m rest IH]; [discriminate|].
  cbn [visit_level]. pose proof (Hrec m) as Hm.
  destruct (rec m) as [sub| |]; cbn [bind]; [|contradiction|discriminate].
  destruct (visit_level rec rest) as [tl| |]; cbn [bind];
    [discriminate|contradiction|discriminate].
Qed.

Lemma visit_not_TypeError fuel h all :
  forall level, visit fuel h all level <> TypeError.
Proof.
  induction fuel as [|fuel IH]; intro level; [discriminate|].
  rewrite visit_unfold. apply visit_level_not_TypeError.
  intro m. destruct (children h all m); [discriminate|apply IH].
Qed.

(** An employee that reports to its own id is never got through. *)
Lemma visit_self_managed h all b :
  In b all -> manager (emp h b) = Some (id (emp h b)) ->
  forall fuel level T, visit fuel h all level = Ok T -> ~ In b T.
Proof.
  intros Hb Hself.
  assert (Hbb : In b (children h all b)) by (apply children_In; auto).
  induction fuel as [|fuel IH]; intros level T HT Hin; [discriminate|].
  rewrite visit_unfold in HT. apply (visit_level_In _ _ HT) in Hin.
  destruct Hin as (m & sub & Hm & Hsub & Hcase). cbv beta in Hsub.
  destruct Hcase as [->|Hin].
  - destruct (children h all m) as [|a cs] eqn:Ec; [destruct Hbb|].
    rewrite <- Ec in *. apply (IH _ _ Hsub).
    eapply visit_complete; [apply rt_refl|exact Hsub|exact Hbb].
  - destruct (children h all m) as [|a cs] eqn:Ec.
    + injection Hsub as <-. destruct Hin.
    + apply (IH _ _ Hsub Hin).
Qed.

Lemma reached_roster h l x :
  reached h (lst h l) x ->
  exists r, In r (roots h l) /\ desc h (roster h l) x r.
Proof.
  intros (r & Hr & Hroot & Hd). exists r. split.
  - apply root_list_In. split; [apply roster_In, Hr|exact Hroot].
  - eapply desc_ext; [|exact Hd]. intro y. symmetry. apply roster_In.
Qed.

Lemma roster_reached h l x :
  (exists r, In r (roots h l) /\ desc h (roster h l) x r) ->
  reached h (lst h l) x.
Proof.
  intros (r & Hr & Hd). apply root_list_In in Hr. destruct Hr as (Hr & Hroot).
  exists r. split; [apply roster_In, Hr|]. split; [exact Hroot|].
  eapply desc_ext; [|exact Hd]. intro y. apply roster_In.
Qed.

(** X2: when an employee the hierarchy reaches reports to its own id
    (which takes two employees with the same id), the construction
    exceeds every recursion depth: it ends in [RecursionError]. *)
Theorem X2_self_managed_reached_diverges l h b :
  l < next h -> In b (lst h l) ->
  manager (emp h b) = Some (id (emp h b)) ->
  reached h (lst h l) b ->
  forall fuel, Staff_init fuel l h = RecursionError.
Proof.
  intros Hl Hb Hself Hreach fuel.
  pose proof (Staff_init_visit fuel h Hl) as Hs.
  destruct (visit fuel h (roster h l) (roots h l)) as [T| |] eqn:HT;
    [|contradiction|exact Hs].
  exfalso. destruct (@reached_roster h l b Hreach) as (r & Hr & Hd).
  apply (@visit_self_managed h (roster h l) b (proj2 (roster_In h l b) Hb)
           Hself fuel _ _ HT).
  eapply visit_complete; eassumption.
Qed.

Lemma X2_witness :
  Staff_init 1000 (input_list scenario_self_managed)
             (input_heap scenario_self_managed) = RecursionError.
Proof.
  apply (@X2_self_managed_reached_diverges (input_list scenario_self_managed)
           (input_heap scenario_self_managed) 1).
  - vm_compute. lia.
  - vm_compute. auto.
  - reflexivity.
  - exists 0. split; [vm_compute; auto|]. split; [reflexivity|].
    apply rt_step. split; [vm_compute; auto|].
    split; [vm_compute; auto|reflexivity].
Defined.

(** X3: whenever the construction returns, the employees it went
    through are exactly those whose chain of managers leads to an
    employee without a manager. *)
Theorem X3_visited_iff_reached fuel l h self h' vis :
  l < next h -> Staff_init fuel l h = Ok (self, h', vis) ->
  forall x, In x vis <-> reached h (lst h l) x.
Proof.
  intros Hl Hrun x.
  destruct (Staff_init_inv _ _ Hl Hrun) as (_ & Hvis & _). split.
  - intro Hx. apply roster_reached.
    destruct (@visit_sound h (roster h l) _ _ _ Hvis (@roots_incl h l) x Hx)
      as (c & Hc & Hd). eauto.
  - intro Hreach. destruct (@reached_roster h l x Hreach) as (r & Hr & Hd).
    eapply visit_complete; eassumption.
Qed.

(** In [scenario_orphan], "bob" (address 1) is reached. *)
Lemma X3_witness :
  exists self h' vis,
    Staff_init 4 (input_list scenario_orphan) (input_heap scenario_orphan)
    = Ok (self, h', vis) /\
    (In 1 vis <->
     reached (input_heap scenario_orphan)
             (lst (input_heap scenario_orphan) (input_list scenario_orphan)) 1).
Proof.
  destruct (Staff_init 4 (input_list scenario_orphan) (input_heap scenario_orphan))
    as [[[self h'] vis]| |] eqn:E; [|vm_compute in E; discriminate ..].
  exists self, h', vis. split; [reflexivity|].
  apply (@X3_visited_iff_reached 4 (input_list scenario_orphan)
           (input_heap scenario_orphan) self h' vis); [vm_compute; lia|exact E].
Defined.

(** ** The order on first names is transitive *)

Lemma ascii_compare_lt_trans a b c :
  Ascii.compare a b = Lt -> Ascii.compare b c = Lt -> Ascii.compare a c = Lt.
Proof.
  unfold Ascii.compare. rewrite !N.compare_lt_iff. apply N.lt_trans.
Qed.

Lemma string_compare_refl a : String.compare a a = Eq.
Proof.
  induction a as [|x a IH]; [reflexivity|].
  cbn [String.compare]. unfold Ascii.compare. rewrite N.compare_refl. exact IH.
Qed.

Lemma string_compare_lt_trans a :
  forall b c, String.compare a b = Lt -> String.compare b c = Lt ->
              String.compare a c = Lt.
Proof.
  induction a as [|x a IH]; intros [|y b] [|z c]; cbn [String.compare];
    try discriminate; try reflexivity.
  destruct (Ascii.compare x y) eqn:Exy; try discriminate;
    destruct (Ascii.compare y z) eqn:Eyz; try discriminate; intros H1 H2.
  - apply Ascii.compare_eq_iff in Exy, Eyz. subst.
    unfold Ascii.compare. rewrite N.compare_refl. apply (IH b c); assumption.
  - apply Ascii.compare_eq_iff in Exy. subst. rewrite Eyz. reflexivity.
  - apply Ascii.compare_eq_iff in Eyz. subst. rewrite Exy. reflexivity.
  - rewrite (ascii_compare_lt_trans _ _ _ Exy Eyz). reflexivity.
Qed.

Lemma string_leb_trans a b c :
  String.leb a b = true -> String.leb b c = true -> String.leb a c = true.
Proof.
  unfold String.leb.
  destruct (String.compare a b) eqn:E1; try discriminate;
    destruct (String.compare b c) eqn:E2; try discriminate; intros _ _.
  - apply String.compare_eq_iff in E1, E2. subst.
    rewrite string_compare_refl. reflexivity.
  - apply String.compare_eq_iff in E1. subst. rewrite E2. reflexivity.
  - apply String.compare_eq_iff in E2. subst. rewrite E1. reflexivity.
  - rewrite (string_compare_lt_trans _ _ _ E1 E2). reflexivity.
Qed.

Lemma StronglySorted_filter {A : Type} (R : A -> A -> Prop) (p : A -> bool) l :
  StronglySorted R l -> StronglySorted R (filter p l).
Proof.
  induction 1 as [|x l Hs IH Hall]; cbn [filter]; [constructor|].
  destruct (p x); [|exact IH]. constructor; [exact IH|].
  rewrite Forall_forall in *. intros y Hy. apply filter_In in Hy.
  apply Hall, Hy.
Qed.

(** A selection from a name-sorted list is name-sorted. *)
Lemma filter_sorted_by_name h (p : ref -> bool) l :
  Sorted (by_name h) l -> Sorted (by_name h) (filter p l).
Proof.
  intro Hs. apply StronglySorted_Sorted, StronglySorted_filter.
  apply Sorted_StronglySorted; [|exact Hs].
  intros a b c. unfold by_name, key_le. apply string_leb_trans.
Qed.

(** The selection of the employees reporting to [m] from the sorted
    roster needs no reordering. *)
Lemma children_roster h l m :
  children h (roster h l) m
  = filter (fun x => reportsToId (emp h x) (id (emp h m))) (roster h l).
Proof.
  unfold children, sort_by_name. apply sort_by_fixed.
  apply (@filter_sorted_by_name h), sort_by_name_sorted.
Qed.

(** ** The reports lists after the construction *)

(** X4: after the construction, the reports list of an employee the
    recursion went through holds exactly the employees of the roster
    whose manager id is its id, in the order of the roster (the sort of
    [setEmployees] finds them already in order); the reports list of
    any other employee of the input is empty. *)
Theorem X4_reports_are_roster_selection fuel l h self h' vis m :
  wf h l -> fresh h l -> Staff_init fuel l h = Ok (self, h', vis) ->
  In m (lst h l) ->
  (In m vis ->
   reports h' m
   = filter (fun x => reportsToId (emp h' x) (id (emp h' m)))
            (lst h' (s_employees self))) /\
  (~ In m vis -> reports h' m = []).
Proof.
  intros Hwf Hfr Hrun Hm.
  pose proof (@Staff_reports fuel l h self h' vis m Hwf Hfr Hrun Hm) as Hrep.
  destruct (Staff_init_inv _ _ (proj1 Hwf) Hrun) as (-> & _ & (Hros & _ & Hf & _)).
  cbn [s_employees]. rewrite Hros.
  destruct (in_dec Nat.eq_dec m vis) as [Hin|Hin]; split; intro H;
    try contradiction; [|exact Hrep].
  rewrite Hrep, children_roster. apply filter_ext. intro x.
  symmetry. apply reportsToId_same, Hf.
Qed.

(** In [scenario_test_hierarchy], "jacob" (address 0) gets "a" (2) and
    "jacob" (1), in that order. *)
Lemma X4_witness :
  exists self h' vis,
    Staff_init 3 (input_list scenario_test_hierarchy)
               (input_heap scenario_test_hierarchy) = Ok (self, h', vis) /\
    reports h' 0 = [2; 1].
Proof.
  destruct (Staff_init 3 (input_list scenario_test_hierarchy)
              (input_heap scenario_test_hierarchy))
    as [[[self h'] vis]| |] eqn:E; [|vm_compute in E; discriminate ..].
  exists self, h', vis. split; [reflexivity|].
  destruct (@X4_reports_are_roster_selection 3
              (input_list scenario_test_hierarchy)
              (input_heap scenario_test_hierarchy) self h' vis 0)
    as (Hin & _).
  - concrete_wf.
  - concrete_fresh.
  - exact E.
  - vm_compute. auto.
  - rewrite Hin.
    + vm_compute in E. injection E as <- <- <-. reflexivity.
    + vm_compute in E. injection E as <- <- <-. vm_compute. auto.
Defined.



(** ** What the construction leaves alone *)

(** X6: the construction assigns no id, first name, salary or manager of
    any employee, modifies no list that existed before it other than
    the caller's, and leaves the [employees] attribute of every employee
    it does not go through as it was. *)
Theorem X6_construction_frame fuel l h self h' vis :
  l < next h -> Staff_init fuel l h = Ok (self, h', vis) ->
  same_fields h h' /\
  (forall a, a < next h -> a <> l -> lst h' a = lst h a) /\
  (forall r, ~ In r vis -> employees (emp h' r) = employees (emp h r)).
Proof.
  intros Hl Hrun.
  destruct (Staff_init_inv _ _ Hl Hrun) as (_ & _ & (_ & _ & Hf & Ho & P)).
  split; [exact Hf|]. split; [exact Ho|].
  intros r Hr. apply (P r). left; exact Hr.
Qed.

Lemma X6_witness :
  exists self h' vis,
    Staff_init 4 (input_list scenario_orphan) (input_heap scenario_orphan)
    = Ok (self, h', vis) /\
    same_fields (input_heap scenario_orphan) h' /\
    (forall a, a < next (input_heap scenario_orphan) ->
               a <> input_list scenario_orphan ->
               lst h' a = lst (input_heap scenario_orphan) a) /\
    (forall r, ~ In r vis ->
               employees (emp h' r)
               = employees (emp (input_heap scenario_orphan) r)).
Proof.
  destruct (Staff_init 4 (input_list scenario_orphan) (input_heap scenario_orphan))
    as [[[self h'] vis]| |] eqn:E; [|vm_compute in E; discriminate ..].
  exists self, h', vis. split; [reflexivity|].
  apply (@X6_construction_frame 4 (input_list scenario_orphan)
           (input_heap scenario_orphan) self h' vis); [vm_compute; lia|exact E].
Defined.

(** ** From the records to the staff *)

(** X7: the list [[Employee(x) for x in data]] holds pairwise distinct
    employees, one per record and in the order of the records, carrying
    the id, first name, salary and manager of their record; none of
    them is a manager yet, and an employee is an owner exactly when its
    record has no manager. *)
Theorem X7_employees_of_records data :
  NoDup (lst (input_heap data) (input_list data)) /\
  map (fun r => raw_of (emp (input_heap data) r))
      (lst (input_heap data) (input_list data)) = data /\
  (forall r, In r (lst (input_heap data) (input_list data)) ->
             isManager (input_heap data) r = false) /\
  map (fun r => isOwner (emp (input_heap data) r))
      (lst (input_heap data) (input_list data))
  = map (fun d => match raw_manager d with None => true | Some _ => false end)
        data.
Proof.
  destruct (build_input_spec data) as (_ & Hfr & Hnd & Hraw).
  split; [exact Hnd|]. split; [exact Hraw|]. split.
  - intros r Hr. unfold isManager. rewrite (Hfr r Hr). reflexivity.
  - apply (f_equal (map (fun d => match raw_manager d with
                                  | None => true
                                  | Some _ => false
                                  end))) in Hraw.
    rewrite map_map in Hraw. exact Hraw.
Qed.

Lemma salary_sum_records data :
  salary_sum (input_heap data) (lst (input_heap data) (input_list data))
  = fold_right Z.add 0%Z (map raw_salary data).
Proof.
  destruct (build_input_spec data) as (_ & _ & _ & Hraw).
  rewrite salary_sum_map. apply (f_equal (map raw_salary)) in Hraw.
  rewrite map_map in Hraw. rewrite <- Hraw. reflexivity.
Qed.

(** The rendering of a constructed forest returns, with the recursion
    depth the construction needed. *)
Lemma repr_after fuel l h self h' vis :
  wf h l -> fresh h l -> Staff_init fuel l h = Ok (self, h', vis) ->
  exists ps,
    preorder fuel h' (lst h' (s_hierarchy self)) 0 = Ok ps /\
    map fst ps = vis /\
    repr fuel self h' = Ok (render_lines h' 2 ps).
Proof.
  intros Hwf Hfr Hrun.
  destruct (Staff_init_inv _ _ (proj1 Hwf) Hrun) as (Hself & Hvis & P).
  assert (Hrep : forall m, In m vis -> reports h' m = children h (roster h l) m).
  { intros m Hm.
    assert (Hml : In m (lst h l)).
    { apply roster_In. eapply visit_incl; [exact Hvis|apply roots_incl|exact Hm]. }
    rewrite (@Staff_reports fuel l h self h' vis m Hwf Hfr Hrun Hml).
    destruct (in_dec Nat.eq_dec m vis); [reflexivity|contradiction]. }
  destruct P as (_ & Hroots & _). subst self. cbn [s_hierarchy].
  rewrite Hroots.
  destruct (@preorder_visit h (roster h l) h' fuel _ _ 0%Z Hvis Hrep)
    as (ps & Hps & Hfst).
  exists ps. split; [exact Hps|]. split; [exact Hfst|].
  unfold repr. cbn [s_hierarchy].
  change 0%Z with (0 * 2)%Z at 1.
  rewrite generateHierarchyString_preorder, Hroots, Hps. reflexivity.
Qed.

(** X1: for records with pairwise distinct ids, whatever their managers
    (dangling, cyclic), the construction of the staff returns within a
    recursion depth of the number of records plus one, the rendering
    returns too, and for at least one record the total is the sum of
    the salaries of the records. *)
Theorem X1_distinct_ids_staff_is_built data :
  NoDup (map raw_id data) ->
  exists self h' vis s,
    Staff_init (S (List.length data)) (input_list data) (input_heap data)
    = Ok (self, h', vis) /\
    repr (S (List.length data)) self h' = Ok s /\
    (data <> [] ->
     totalSalary self h' = Ok (fold_right Z.add 0%Z (map raw_salary data))).
Proof.
  intro Hnd. destruct (@Staff_of_records_ok data Hnd) as (self & h' & vis & Hrun).
  destruct (build_input_spec data) as (Hwf & Hfr & _ & Hraw).
  destruct (@repr_after _ _ _ self h' vis Hwf Hfr Hrun) as (ps & _ & _ & Hrepr).
  exists self, h', vis, (render_lines h' 2 ps).
  split; [exact Hrun|]. split; [exact Hrepr|].
  intro Hne. rewrite (@totalSalary_after _ _ _ self h' vis (proj1 Hwf) Hrun).
  destruct (lst (input_heap data) (input_list data)) as [|x xs] eqn:El.
  - cbn in Hraw. congruence.
  - rewrite <- El, salary_sum_records. reflexivity.
Qed.

(** [scenario_unreachable_manager]: distinct ids 1 and 2, nobody without
    a manager. *)
Lemma X1_witness :
  exists self h' vis s,
    Staff_init 3 (input_list scenario_unreachable_manager)
               (input_heap scenario_unreachable_manager) = Ok (self, h', vis) /\
    repr 3 self h' = Ok s /\
    (scenario_unreachable_manager <> [] ->
     totalSalary self h' = Ok 30%Z).
Proof.
  apply (@X1_distinct_ids_staff_is_built scenario_unreachable_manager).
  vm_compute. repeat constructor; simpl; intuition discriminate.
Defined.

(** ** With one manager per employee, nobody is listed twice *)


Section ReachedOnce.
Variable h : heap.
Variable all : list ref.
Hypothesis Hu : one_manager h all.






End ReachedOnce.




(** ** Indentation and the chain of command *)






(** ** Same-named siblings *)





(** ** Reports set before the construction *)

(** X11: the construction never clears a reports list: an employee to
    whose id no manager id of the input refers keeps the list its
    [employees] attribute referred to before the construction, with its
    contents (when that list is not the caller's list itself). *)
Theorem X11_reports_without_subordinates_are_kept fuel l h self h' vis r :
  l < next h -> Staff_init fuel l h = Ok (self, h', vis) ->
  (forall x, In x (lst h l) -> manager (emp h x) <> Some (id (emp h r))) ->
  employees (emp h' r) = employees (emp h r) /\
  (employees (emp h r) < next h -> employees (emp h r) <> l ->
   reports h' r = reports h r).
Proof.
  intros Hl Hrun Hnone.
  destruct (Staff_init_inv _ _ Hl Hrun) as (_ & _ & (_ & _ & _ & Ho & P)).
  assert (Hc : children h (roster h l) r = []).
  { destruct (children h (roster h l) r) as [|a cs] eqn:Ec; [reflexivity|].
    assert (Ha : In a (children h (roster h l) r)) by (rewrite Ec; left; reflexivity).
    apply children_In in Ha. rewrite roster_In in Ha.
    destruct (Hnone a (proj1 Ha) (proj2 Ha)). }
  assert (He : employees (emp h' r) = employees (emp h r)).
  { apply (P r). right; exact Hc. }
  split; [exact He|]. intros Hlt Hne. unfold reports. rewrite He.
  apply Ho; assumption.
Qed.

(** [a.setEmployees([b]); Staff([a, b])]: "a" (address 0) keeps "b"
    (address 1) as its report, though "b" has no manager. *)
Lemma X11_witness :
  exists self h' vis,
    Staff_init 3 (fst stale_input) (snd stale_input) = Ok (self, h', vis) /\
    manager (emp h' 1) = None /\
    reports h' 0 = [1].
Proof.
  destruct (Staff_init 3 (fst stale_input) (snd stale_input))
    as [[[self h'] vis]| |] eqn:E; [|vm_compute in E; discriminate ..].
  exists self, h', vis. split; [reflexivity|].
  destruct (@X11_reports_without_subordinates_are_kept 3 (fst stale_input)
              (snd stale_input) self h' vis 0) as (_ & Hrep).
  - vm_compute. lia.
  - exact E.
  - intros x Hx. enum_In Hx; vm_compute; discriminate.
  - split.
    + vm_compute in E. injection E as <- <- <-. reflexivity.
    + rewrite Hrep; [reflexivity|vm_compute; lia|vm_compute; discriminate].
Defined.

(** ** Constructing twice *)

Lemma visit_level_ext rec1 rec2 level :
  (forall m, rec1 m = rec2 m) -> visit_level rec1 level = visit_level rec2 level.
Proof.
  intro H. induction level as [|m rest IH]; [reflexivity|].
  cbn [visit_level]. rewrite H, IH. reflexivity.
Qed.

Lemma visit_same h h' all fuel :
  same_fields h h' ->
  forall level, visit fuel h' all level = visit fuel h all level.
Proof.
  intro Hf. induction fuel as [|fuel IH]; intro level; [reflexivity|].
  rewrite !visit_unfold. apply visit_level_ext. intro m.
  rewrite (@children_same h h' all m Hf).
  destruct (children h all m); [reflexivity|apply IH].
Qed.

Lemma forEach_ext {A S : Type} (b1 b2 : A -> S -> result S) l :
  (forall x, In x l -> forall s, b1 x s = b2 x s) ->
  forall s, forEach b1 l s = forEach b2 l s.
Proof.
  induction l as [|x l IH]; intros H s; [reflexivity|].
  cbn [forEach]. rewrite (H x (in_eq _ _)).
  destruct (b2 x s) as [s'| |]; cbn [bind]; try reflexivity.
  apply IH. intros y Hy. apply H. right; exact Hy.
Qed.

(** The rendering only depends on the first names and on the reports of
    the employees it goes through. *)
Lemma generateHierarchyString_ext (S : list ref) h1 h2 tw :
  (forall m, In m S ->
     first_name (emp h1 m) = first_name (emp h2 m) /\
     reports h1 m = reports h2 m /\ incl (reports h1 m) S) ->
  forall fuel hl1 hl2 d,
    lst h1 hl1 = lst h2 hl2 -> incl (lst h1 hl1) S ->
    generateHierarchyString fuel h1 hl1 d tw
    = generateHierarchyString fuel h2 hl2 d tw.
Proof.
  intro HS. induction fuel as [|fuel IH]; intros hl1 hl2 d Hl Hincl;
    [reflexivity|].
  rewrite !generateHierarchyString_unfold, <- Hl. apply forEach_ext.
  intros x Hx s. destruct (HS x (Hincl x Hx)) as (Hname & Hrep & Hsub).
  pose proof Hrep as Hlst. unfold reports in Hlst.
  unfold ghs_body. rewrite !isManager_reports, <- Hrep, Hname.
  destruct (reports h1 x) as [|a c] eqn:Er; [reflexivity|].
  rewrite (IH (employees (emp h1 x)) (employees (emp h2 x))).
  - reflexivity.
  - exact Hlst.
  - unfold reports in Er. rewrite Er. exact Hsub.
Qed.

(** The construction leaves a well-formed input. *)
Lemma Staff_init_wf fuel l h self h' vis :
  wf h l -> Staff_init fuel l h = Ok (self, h', vis) -> wf h' l.
Proof.
  intros (Hl & Hwf) Hrun.
  destruct (Staff_init_inv _ _ Hl Hrun) as (_ & _ & (Hros & _)).
  unfold Staff_init, list_comp, new_list in Hrun.
  set (h1 := list_sort l h) in *. cbv zeta in Hrun. cbn [s_hierarchy] in Hrun.
  set (h2 := mkHeap _ _ _ _) in *.
  assert (E1 : lst h1 l = roster h l).
  { unfold h1, list_sort, set_lst. cbn [lst]. apply upd_same. }
  assert (E2l : lst h2 l = roster h l).
  { unfold h2. cbn [lst]. rewrite upd_other by (unfold h1; simpl; lia). exact E1. }
  assert (Hinv : roster_inv h (roster h l) (mkStaff l (next h)) h2).
  { split; [simpl; lia|]. split; [exact E2l|]. intro r. simpl. repeat split. }
  pose proof (generateHierarchy_visit fuel (next h1) [] Hinv) as Hs.
  unfold sim_result in Hs.
  destruct (generateHierarchy fuel _ _ (h2, [])) as [[h3 v3]| |] eqn:Eg in Hrun;
    try discriminate Hrun.
  cbn [bind] in Hrun. injection Hrun as _ <- _.
  destruct (visit fuel h (roster h l) (lst h2 (next h1))) as [T| |];
    [|contradiction|pose proof (eq_trans (eq_sym Eg) Hs); discriminate].
  destruct Hs as (h'' & E & (Fn & _ & _) & P).
  pose proof (eq_trans (eq_sym Eg) E) as E3. injection E3 as -> _.
  change (next h2) with (S (next h)) in Fn. split; [lia|].
  intros r Hr. rewrite Hros in Hr. apply roster_In in Hr.
  destruct (P r) as (A & B).
  destruct (in_dec Nat.eq_dec r T) as [Hin|Hin].
  - destruct (children h (roster h l) r) as [|a cs] eqn:Ec.
    + rewrite B by (right; reflexivity). change (emp h2 r) with (emp h r).
      pose proof (Hwf r Hr). lia.
    + apply A; [exact Hin|discriminate].
  - rewrite B by (left; exact Hin). change (emp h2 r) with (emp h r).
    pose proof (Hwf r Hr). lia.
Qed.

Lemma roster_again fuel l h self h' vis :
  l < next h -> Staff_init fuel l h = Ok (self, h', vis) ->
  roster h' l = roster h l /\ roots h' l = roots h l.
Proof.
  intros Hl Hrun.
  destruct (Staff_init_inv _ _ Hl Hrun) as (_ & _ & (Hros & _ & Hf & _)).
  assert (E : roster h' l = roster h l).
  { unfold roster at 1. rewrite Hros, (@sort_by_name_same h h' _ Hf).
    apply sort_by_name_idem. }
  split; [exact E|]. unfold roots, root_list. rewrite E. apply filter_ext.
  intro x. apply isOwner_same, Hf.
Qed.

(** X12: constructing the staff a second time from the same list, on
    the heap the first construction left, goes through the same
    employees in the same order and leaves the same roster, the same
    roots, the same reports for every employee of the input and the
    same rendering. *)
Theorem X12_constructing_twice fuel l h self h' vis :
  wf h l -> fresh h l -> Staff_init fuel l h = Ok (self, h', vis) ->
  exists self2 h'',
    Staff_init fuel l h' = Ok (self2, h'', vis) /\
    lst h'' (s_employees self2) = lst h' (s_employees self) /\
    lst h'' (s_hierarchy self2) = lst h' (s_hierarchy self) /\
    (forall m, In m (lst h l) -> reports h'' m = reports h' m) /\
    repr fuel self2 h'' = repr fuel self h'.
Proof.
  intros Hwf Hfr Hrun.
  pose proof (@Staff_init_wf fuel l h self h' vis Hwf Hrun) as Hwf'.
  destruct (@roster_again fuel l h self h' vis (proj1 Hwf) Hrun) as (Eros & Eroots).
  destruct (Staff_init_inv _ _ (proj1 Hwf) Hrun)
    as (Hself & Hvis & (Hros & Hroots & Hf & _)).
  pose proof (Staff_init_visit fuel h' (proj1 Hwf')) as Hs.
  rewrite Eros, Eroots, (@visit_same h h' (roster h l) fuel Hf), Hvis in Hs.
  destruct Hs as (h'' & Hrun2 & (Hros2 & Hroots2 & Hf2 & Ho2 & P2)).
  rewrite Eros in Hros2. rewrite Eroots in Hroots2.
  assert (Hrep : forall m, In m (lst h l) -> reports h'' m = reports h' m).
  { intros m Hm.
    pose proof (@Staff_reports fuel l h self h' vis m Hwf Hfr Hrun Hm) as Hr1.
    destruct (P2 m) as (A & B).
    rewrite Eros, (@children_same h h' (roster h l) m Hf) in A, B.
    assert (Hold : reports h' m = [] ->
                   employees (emp h'' m) = employees (emp h' m) ->
                   reports h'' m = reports h' m).
    { intros Hnil He. unfold reports. rewrite He. apply Ho2.
      - apply (proj2 Hwf'). rewrite Hros. apply roster_In, Hm.
      - intro El. unfold reports in Hnil. rewrite El, Hros in Hnil.
        apply roster_In in Hm. rewrite Hnil in Hm. destruct Hm. }
    destruct (in_dec Nat.eq_dec m vis) as [Hin|Hin].
    - destruct (children h (roster h l) m) as [|a cs] eqn:Ec.
      + apply (Hold Hr1). apply B. right; reflexivity.
      + rewrite Hr1. apply A; [exact Hin|discriminate].
    - apply (Hold Hr1). apply B. left; exact Hin. }
  exists (mkStaff l (next h')), h''. subst self. cbn [s_employees s_hierarchy].
  split; [exact Hrun2|]. split; [congruence|]. split; [congruence|].
  split; [exact Hrep|].
  unfold repr. cbn [s_hierarchy].
  apply (@generateHierarchyString_ext (lst h l)).
  - intros m Hm. split; [apply (Hf2 m)|]. split; [apply Hrep, Hm|].
    rewrite (Hrep m Hm). intros x Hx.
    apply (@Staff_reports_In fuel l h _ h' vis m x Hwf Hfr Hrun Hm Hx).
  - congruence.
  - rewrite Hroots2. intros x Hx. apply roster_In, roots_incl, Hx.
Qed.

Lemma X12_witness :
  exists self h' vis self2 h'',
    Staff_init 3 (input_list scenario_hierarchy) (input_heap scenario_hierarchy)
    = Ok (self, h', vis) /\
    Staff_init 3 (input_list scenario_hierarchy) h' = Ok (self2, h'', vis) /\
    repr 3 self2 h'' = repr 3 self h'.
Proof.
  destruct (Staff_init 3 (input_list scenario_hierarchy)
              (input_heap scenario_hierarchy))
    as [[[self h'] vis]| |] eqn:E; [|vm_compute in E; discriminate ..].
  destruct (@X12_constructing_twice 3 (input_list scenario_hierarchy)
              (input_heap scenario_hierarchy) self h' vis)
    as (self2 & h'' & Hrun2 & _ & _ & _ & Hrepr).
  - concrete_wf.
  - concrete_fresh.
  - exact E.
  - exists self, h', vis, self2, h''. auto.
Defined.

(** ** Rendering reports that loop *)




